(** * UART baudrate analyzer: a shallow embedding of
      [owfmodules/uart/baudrate_analyzer.py] and its properties.

    Python values are modelled as follows.
    - [bytes] / [bytearray]  : [list byte];
    - [int]                  : [Z];
    - [float]                : the entropy score and the minimum-entropy
      option are real numbers ([R]): rounding is not modelled, the
      arithmetic is the exact one.  What is proved of the scorer is
      therefore proved of its formula; of the doubles the interpreter
      computes only what does not depend on the value stands (that the
      scorer raises nothing, and how its result gates the printing of a
      line).  Durations are rationals ([Q]);
    - [str]                  : [string] (8-bit characters);
    - exceptions             : the type [exn], results are [exn + A];
    - the adapter (UART, GPIO, serial transport, clock) is a record of
      operations over an abstract device state; every call the module
      makes on it is recorded in an event log. *)

From Stdlib Require Import Strings.Byte Strings.Ascii Strings.String.
From Stdlib Require Import Reals Lra Lia ZArith QArith Bool.
From Stdlib Require Import List Permutation FinFun.
Import ListNotations.

(** ** Exceptions *)

Inductive exn : Type :=
| ValueError (msg : string)
| ZeroDivisionError
| DeviceError (msg : string)   (* any other subclass of [Exception] *)
| KeyboardInterrupt.           (* a [BaseException]: [except Exception] lets it through *)

(** [except (ValueError, Exception)] and [except (Exception, ValueError)]
    catch the same exceptions: every subclass of [Exception]. *)
Definition is_Exception (e : exn) : bool :=
  match e with
  | KeyboardInterrupt => false
  | _ => true
  end.

Module Pure.
(** Pure computations that may raise. *)
Definition bind {A B : Type} (m : exn + A) (f : A -> exn + B) : exn + B :=
  match m with
  | inl e => inl e
  | inr a => f a
  end.
End Pure.

(** ** Entropy scorer *)

Module Entropy.
Local Open Scope R_scope.

(** [collections.Counter] keeps its keys in insertion order, which is the
    order of first occurrence in the buffer. *)
Definition counter := list (byte * nat).

Fixpoint counter_incr (b : byte) (p : counter) : counter :=
  match p with
  | [] => [(b, 1%nat)]
  | (k, c) :: rest =>
      if byte_eq_dec k b then (k, S c) :: rest
      else (k, c) :: counter_incr b rest
  end.

Definition Counter (b_buff : list byte) : counter :=
  fold_left (fun p b => counter_incr b p) b_buff [].

Definition values (p : counter) : list nat := map snd p.

(** [a / b] on floats. *)
Definition true_div (a b : R) : exn + R :=
  if Req_dec_T b 0 then inl ZeroDivisionError else inr (a / b).

(** [math.log(x, base)] is [log(x) / log(base)]. *)
Definition math_log (x base : R) : exn + R :=
  if Rlt_dec 0 x then
    if Rlt_dec 0 base then true_div (ln x) (ln base)
    else inl (ValueError "math domain error")
  else inl (ValueError "math domain error").

(** One term of the generator: [count / lns * math.log(count / lns, 2)]. *)
Definition term (lns : R) (count : nat) : exn + R :=
  Pure.bind (true_div (INR count) lns) (fun q =>
  Pure.bind (true_div (INR count) lns) (fun q' =>
  Pure.bind (math_log q' 2) (fun l =>
  inr (q * l)))).

(** [sum(gen)]: starts from 0 and adds the terms from left to right; the
    first term that raises ends the sum. *)
Fixpoint py_sum (gen : list nat) (f : nat -> exn + R) (acc : R) : exn + R :=
  match gen with
  | [] => inr acc
  | x :: rest => Pure.bind (f x) (fun t => py_sum rest f (acc + t))
  end.

Definition entropy (b_buff : list byte) : exn + R :=
  let p := Counter b_buff in
  let lns := INR (length b_buff) in
  Pure.bind (py_sum (values p) (term lns) 0) (fun s => inr (- s)).

(** The mathematical sum the generator computes when no term raises. *)
Definition plogp (lns : R) (count : nat) : R :=
  INR count / lns * (ln (INR count / lns) / ln 2).

Fixpoint Rsum (l : list R) : R :=
  match l with
  | [] => 0
  | x :: rest => x + Rsum rest
  end.

Fixpoint total (l : list nat) : nat :=
  match l with
  | [] => 0%nat
  | x :: rest => (x + total rest)%nat
  end.

(** The value [entropy] returns (it never raises, see [entropy_never_raises]). *)
Definition score (b_buff : list byte) : R :=
  match entropy b_buff with
  | inr h => h
  | inl _ => 0
  end.
End Entropy.

(** ** Python built-ins used by the module *)

Module Py.
Local Open Scope Z_scope.

(** [str.upper] on an 8-bit string.  Only the ASCII letters are mapped:
    the module compares the result with ASCII words, and no other 8-bit
    character has an upper case made of ASCII letters that occur in them.
    Characters beyond the 8-bit range are outside the model (two of them,
    the dotless i and the long s, have the upper cases I and S). *)
Definition upper_char (c : ascii) : ascii :=
  let n := nat_of_ascii c in
  if ((97 <=? n) && (n <=? 122))%nat then ascii_of_nat (n - 32) else c.

Fixpoint upper (s : string) : string :=
  match s with
  | EmptyString => EmptyString
  | String c rest => String (upper_char c) (upper rest)
  end.

(** The characters [str.strip] and [int] treat as white space, among the
    8-bit ones: TAB, LF, VT, FF, CR, FS, GS, RS, US, space, NEL, NBSP. *)
Definition is_space (c : ascii) : bool :=
  let n := nat_of_ascii c in
  (((9 <=? n) && (n <=? 13)) || ((28 <=? n) && (n <=? 32))
   || (n =? 133) || (n =? 160))%nat.

Fixpoint lstrip (s : string) : string :=
  match s with
  | EmptyString => EmptyString
  | String c rest => if is_space c then lstrip rest else s
  end.

Fixpoint rstrip (s : string) : string :=
  match s with
  | EmptyString => EmptyString
  | String c rest =>
      match rstrip rest with
      | EmptyString => if is_space c then EmptyString else String c EmptyString
      | kept => String c kept
      end
  end.

Definition strip (s : string) : string := rstrip (lstrip s).

(** [s.split(sep)] for a one-character separator: never the empty list. *)
Fixpoint split (sep : ascii) (s : string) : list string :=
  match s with
  | EmptyString => [EmptyString]
  | String c rest =>
      match split sep rest with
      | [] => [String c EmptyString]
      | field :: fields =>
          if Ascii.eqb c sep then EmptyString :: field :: fields
          else String c field :: fields
      end
  end.

Definition digit_of (c : ascii) : option Z :=
  let n := nat_of_ascii c in
  if ((48 <=? n) && (n <=? 57))%nat then Some (Z.of_nat n - 48) else None.

(** Decimal digits, single underscores allowed between two digits. *)
Fixpoint digits (acc : Z) (after_digit : bool) (s : string) : option Z :=
  match s with
  | EmptyString => if after_digit then Some acc else None
  | String c rest =>
      match digit_of c with
      | Some d => digits (acc * 10 + d) true rest
      | None =>
          if Ascii.eqb c "_" && after_digit then digits acc false rest
          else None
      end
  end.

(** [int(s)] in base 10: surrounding white space, an optional sign, then
    digits.  The interpreter's message goes on with the literal it
    rejected; the module only logs the exception, so the text is cut short
    here.  (The length limit of recent interpreters is left out.) *)
Definition int (s : string) : exn + Z :=
  let bad := inl (ValueError "invalid literal for int() with base 10") in
  match strip s with
  | String "-" rest =>
      match digits 0 false rest with Some n => inr (- n) | None => bad end
  | String "+" rest =>
      match digits 0 false rest with Some n => inr n | None => bad end
  | body =>
      match digits 0 false body with Some n => inr n | None => bad end
  end.

(** [len(range(lo, hi, step))], as the interpreter computes it. *)
Definition range_length (lo hi step : Z) : Z :=
  if 0 <? step then (if lo <? hi then (hi - lo - 1) / step + 1 else 0)
  else (if hi <? lo then (lo - hi - 1) / (- step) + 1 else 0).

(** [range(lo, hi, step)], listed. *)
Definition range (lo hi step : Z) : exn + list Z :=
  if step =? 0 then inl (ValueError "range() arg 3 must not be zero")
  else inr (map (fun i => lo + Z.of_nat i * step)
                (seq 0 (Z.to_nat (range_length lo hi step)))).

(** Truth value of what [process_baudrate] returns: [None] (no [return]
    statement reached) is false. *)
Definition truthy (v : option bool) : bool :=
  match v with
  | Some b => b
  | None => false
  end.

Fixpoint mem (s : string) (l : list string) : bool :=
  match l with
  | [] => false
  | x :: rest => String.eqb s x || mem s rest
  end.

(** The list comprehension [[f(x) for x in l]]: built in full, left to
    right, before anything uses it. *)
Fixpoint comprehension {A B : Type} (f : A -> exn + B) (l : list A) : exn + list B :=
  match l with
  | [] => inr []
  | x :: rest =>
      Pure.bind (f x) (fun y =>
      Pure.bind (comprehension f rest) (fun ys => inr (y :: ys)))
  end.
End Py.

(** ** Options, events and the adapter *)

(** The values of [self.options] and [self.advanced_options].  An unset
    optional value (the empty string in the source) is [None]. *)
Record Options : Type := {
  uart_interface : Z;
  mode : string;
  reset_pin : option Z;
  trigger : bool;
  reset_pol : string;
  reset_hold : Q;
  reset_delay : Q;
  min_entropy : option R;
  baudrate_min : Z;
  baudrate_max : Z;
  baudrate_inc : Z;
  baudrate_list : string;
  trigger_char : list byte
}.

Inductive level : Type := INFO | WARNING | ERROR | HEADER | USER_INTERACT.

Inductive message : Type :=
| Text (s : string)
| Raised (e : exn)                       (* [logger.handle(err, ...)] *)
| NoData (baudrate : Z)                  (* "No data received using ..." *)
| Result (baudrate : Z) (entropy : R) (got : string).   (* [print_result] *)

(** The calls the module makes on its collaborators. *)
Inductive call : Type :=
| Connect
| SerialInWaiting
| SerialRead (n : Z)
| UartOpen (interface_id : Z)
| Configure (baudrate : Z)
| InWaiting
| Receive (size : Z)
| Transmit (data : list byte)
| GpioOpen (pin : Z)
| GpioDirection
| GpioStatus (v : Z)
| Sleep (seconds : Q).

Inductive event : Type :=
| Call (c : call)
| Got (data : list byte)                 (* what a [Receive] returned *)
| Log (lvl : level) (msg : message)
| ProgressStart
| ProgressStatus (data : list byte)
| ProgressStop.

(** The Octowire adapter, as the module sees it.  [polls] is the number of
    times the busy-wait of [wait_bytes] gets to read [in_waiting] before its
    one-second deadline passes: wall-clock time itself is not modelled.
    [connect] is the framework's [self.connect()]: it returns whether
    [self.owf_serial] is set afterwards.  Every call may raise, [connect]
    and the wait of [time.sleep] included (an interrupt during the wait is
    a [KeyboardInterrupt]). *)
Record Adapter (D : Type) : Type := {
  connect : D -> (exn + bool) * D;
  polls : D -> nat;
  serial_in_waiting : D -> (exn + Z) * D;
  serial_read : Z -> D -> (exn + list byte) * D;
  uart_open : Z -> D -> (exn + unit) * D;
  configure : Z -> D -> (exn + unit) * D;
  in_waiting : D -> (exn + Z) * D;
  receive : Z -> D -> (exn + list byte) * D;
  transmit : list byte -> D -> (exn + unit) * D;
  gpio_open : Z -> D -> (exn + unit) * D;
  gpio_direction : D -> (exn + unit) * D;
  gpio_status : Z -> D -> (exn + unit) * D;
  sleep : Q -> D -> (exn + unit) * D
}.
Arguments connect {D} _ _.
Arguments polls {D} _ _.
Arguments serial_in_waiting {D} _ _.
Arguments serial_read {D} _ _ _.
Arguments uart_open {D} _ _ _.
Arguments configure {D} _ _ _.
Arguments in_waiting {D} _ _.
Arguments receive {D} _ _ _.
Arguments transmit {D} _ _ _.
Arguments gpio_open {D} _ _ _.
Arguments gpio_direction {D} _ _.
Arguments gpio_status {D} _ _ _.
Arguments sleep {D} _ _ _.

(** ** State, errors and the event log *)

Record outcome (D A : Type) : Type := Out {
  result : exn + A;
  final : D;
  events : list event
}.
Arguments Out {D A} _ _ _.
Arguments result {D A} _.
Arguments final {D A} _.
Arguments events {D A} _.

Definition M (D A : Type) : Type := D -> outcome D A.

Definition ret {D A : Type} (a : A) : M D A := fun d => Out (inr a) d [].

Definition raise {D A : Type} (e : exn) : M D A := fun d => Out (inl e) d [].

Definition bind {D A B : Type} (m : M D A) (f : A -> M D B) : M D B :=
  fun d =>
    let r := m d in
    match result r with
    | inl e => Out (inl e) (final r) (events r)
    | inr a =>
        let r' := f a (final r) in
        Out (result r') (final r') (events r ++ events r')
    end.

(** [try: body except (ValueError, Exception) as err: handler]. *)
Definition try_except {D A : Type} (body : M D A) (handler : exn -> M D A) : M D A :=
  fun d =>
    let r := body d in
    match result r with
    | inl e =>
        if is_Exception e then
          let r' := handler e (final r) in
          Out (result r') (final r') (events r ++ events r')
        else r
    | inr _ => r
    end.

Definition emit {D : Type} (e : event) : M D unit := fun d => Out (inr tt) d [e].

Definition lift {D A : Type} (r : exn + A) : M D A := fun d => Out r d [].

(** A call on the adapter: logged, then performed. *)
Definition invoke {D A : Type} (c : call) (op : D -> (exn + A) * D) : M D A :=
  fun d => Out (fst (op d)) (snd (op d)) [Call c].

Declare Scope py_scope.
Delimit Scope py_scope with py.
Notation "x <- m ;; k" := (bind m (fun x => k))
  (at level 61, m at next level, right associativity) : py_scope.
Notation "m ;; k" := (bind m (fun _ => k))
  (at level 61, right associativity) : py_scope.

(** ** The module *)

Module BaudrateAnalyzer.
Import Py.
Local Open Scope string_scope.
Local Open Scope Z_scope.
Local Open Scope py_scope.

(** [codecs.encode(bytes([b]), 'hex').decode()]: two lower-case digits. *)
Definition hex_digit (n : nat) : ascii :=
  if (n <? 10)%nat then ascii_of_nat (48 + n) else ascii_of_nat (87 + n).

Definition hex_of_byte (b : byte) : string :=
  let n := Byte.to_nat b in
  String (hex_digit (n / 16)) (String (hex_digit (n mod 16)) EmptyString).

Fixpoint bytearray_to_hex_repr (b_buff : list byte) : string :=
  match b_buff with
  | [] => EmptyString
  | b :: rest => "\x" ++ hex_of_byte b ++ bytearray_to_hex_repr rest
  end.

(** The local variables of [process_baudrate] that its loop updates. *)
Record locals : Type := Locals {
  count : Z;
  loop : Z;
  received_bytes : list byte
}.

(** How one pass through the body of the [while] ends. *)
Inductive flow : Type :=
| Next (l : locals)            (* end of the body, or [continue] *)
| Return (v : option bool).    (* [return v] *)

Definition threshold : Z := 10.

(** The body of the [while] runs at most [threshold] times through its
    read branch and at most 3 times through its trigger branch, so the
    fuel never runs out ([while_loop_fuel]). *)
Definition max_passes : nat := 13.

Section WithAdapter.
Context {D : Type} (hw : Adapter D) (opts : Options).

Definition log (lvl : level) (msg : message) : M D unit := emit (Log lvl msg).

(** [time.sleep(seconds)]: a negative duration is refused before any
    wait.  (Durations that are not numbers are not rationals.) *)
Definition time_sleep (seconds : Q) : M D unit :=
  if Qle_bool 0 seconds then invoke (Sleep seconds) (sleep hw seconds)
  else raise (ValueError "sleep length must be non-negative").

Definition uart_in_waiting : M D Z := invoke InWaiting (in_waiting hw).

Definition uart_receive (size : Z) : M D (list byte) :=
  data <- invoke (Receive size) (receive hw size) ;;
  emit (Got data) ;;
  ret data.

(** The [try] around the list check cannot raise on a string option, so
    its [except] branch (which logs and falls through to [return True])
    has no counterpart here. *)
Definition check_options : M D bool :=
  let invalid_pin :=
    match reset_pin opts with
    | Some pin =>
        if negb (mem (upper (reset_pol opts)) ["LOW"; "HIGH"]) then
          Some "Invalid reset polarity."
        else if negb ((0 <=? pin) && (pin <? 15)) then
          Some "Invalid reset pin."
        else None
    | None => None
    end in
  match invalid_pin with
  | Some msg => log ERROR (Text msg) ;; ret false
  | None =>
      if negb (mem (upper (mode opts)) ["INCREMENTAL"; "LIST"]) then
        log ERROR (Text "Invalid mode option. Please use 'incremental' or 'list'") ;;
        ret false
      else if String.eqb (upper (mode opts)) "LIST" then
        let baud_list := map strip (split "," (baudrate_list opts)) in
        match baud_list with
        | [] => log ERROR (Text "Empty or invalid baudrate list.") ;; ret false
        | _ :: _ => ret true
        end
      else ret true
  end.

(** The busy-wait: read [in_waiting] until it is positive or the
    deadline has passed. *)
Fixpoint poll (n : nat) : M D bool :=
  match n with
  | O => ret false
  | S n' =>
      in_waiting <- uart_in_waiting ;;
      if 0 <? in_waiting then ret true else poll n'
  end.

Definition wait_bytes : M D bool := fun d => poll (polls hw d) d.

Definition change_baudrate (baudrate : Z) : M D bool :=
  try_except
    ((* Empty serial_instance buffer *)
     n <- invoke SerialInWaiting (serial_in_waiting hw) ;;
     invoke (SerialRead n) (serial_read hw n) ;;
     (* Configure UART baudrate *)
     invoke (Configure baudrate) (configure hw baudrate) ;;
     (* Empty UART in_waiting buffer *)
     pending <- uart_in_waiting ;;
     uart_receive pending ;;
     ret true)
    (fun err => log ERROR (Raised err) ;; ret false).

Definition trigger_device : M D unit :=
  log INFO (Text "Triggering the device") ;;
  invoke (Transmit (trigger_char opts)) (transmit hw (trigger_char opts)) ;;
  time_sleep (2 # 10).

Definition print_result (baudrate : Z) (b_buff : list byte) (entropy : R) : M D unit :=
  log USER_INTERACT (Result baudrate entropy (bytearray_to_hex_repr b_buff)).

(** One pass through the body of the [while] of [process_baudrate].
    What [progress.status] shows (text or hex) is not modelled, only
    that it is called with the bytes read. *)
Definition pass (baudrate : Z) (l : locals) : M D flow :=
  available <- wait_bytes ;;
  if available then
    tmp <- uart_receive 1 ;;
    emit (ProgressStatus tmp) ;;
    ret (Next (Locals (count l + 1) (loop l) (received_bytes l ++ tmp)))
  else if trigger opts && (loop l <? 3) then
    trigger_device ;;
    ret (Next (Locals (count l) (loop l + 1) (received_bytes l)))
  else
    emit ProgressStop ;;
    log WARNING (NoData baudrate) ;;
    ret (Return (Some false)).

(** [while count < threshold: ...]; [inl] when the condition fails,
    [inr v] on [return v].  The fuel bounds the number of passes; started
    with [max_passes] it is never used up ([while_loop_fuel],
    [while_loop_completed]). *)
Fixpoint while_loop (fuel : nat) (baudrate : Z) (l : locals)
  : M D (locals + option bool) :=
  if count l <? threshold then
    match fuel with
    | O => ret (inl l)
    | S fuel' =>
        f <- pass baudrate l ;;
        match f with
        | Next l' => while_loop fuel' baudrate l'
        | Return v => ret (inr v)
        end
    end
  else ret (inl l).

(** The lines after the loop: score the sample and print it. *)
Definition score_and_print (baudrate : Z) (received : list byte) : M D unit :=
  entropy <- lift (Entropy.entropy received) ;;
  match min_entropy opts with
  | Some least =>
      if Rge_dec entropy least then print_result baudrate received entropy
      else ret tt
  | None => print_result baudrate received entropy
  end.

Definition process_baudrate (baudrate : Z) : M D (option bool) :=
  emit ProgressStart ;;
  r <- while_loop max_passes baudrate (Locals 0 0 []) ;;
  match r with
  | inr v => ret v
  | inl l => score_and_print baudrate (received_bytes l) ;; ret None
  end.

Definition gpio_set_status (v : Z) : M D unit :=
  invoke (GpioStatus v) (gpio_status hw v).

(** [self_reset_pin] is [self.reset_pin]: [None] or the GPIO handle. *)
Definition reset_target (self_reset_pin : option Z) : M D unit :=
  match self_reset_pin with
  | None => ret tt
  | Some _ =>
      log INFO (Text "Attempting to reset the target..") ;;
      (if String.eqb (upper (reset_pol opts)) "LOW" then
         gpio_set_status 0 ;; time_sleep (reset_hold opts) ;; gpio_set_status 1
       else
         gpio_set_status 1 ;; time_sleep (reset_hold opts) ;; gpio_set_status 0) ;;
      time_sleep (reset_delay opts)
  end.

(** [init] returns the value it leaves in [self.reset_pin]. *)
Definition init : M D (option Z) :=
  invoke (UartOpen (uart_interface opts)) (uart_open hw (uart_interface opts)) ;;
  match reset_pin opts with
  | None => ret None
  | Some pin =>
      invoke (GpioOpen pin) (gpio_open hw pin) ;;
      invoke GpioDirection (gpio_direction hw) ;;
      (if String.eqb (upper (reset_pol opts)) "LOW" then gpio_set_status 1
       else gpio_set_status 0) ;;
      ret (Some pin)
  end.

(** The [for baudrate in ...] loop shared by both modes. *)
Fixpoint sweep (self_reset_pin : option Z) (rates : list Z) : M D unit :=
  match rates with
  | [] => ret tt
  | baudrate :: later =>
      changed <- change_baudrate baudrate ;;
      if changed then
        reset_target self_reset_pin ;;
        found <- process_baudrate baudrate ;;
        if truthy found then ret tt   (* break *)
        else sweep self_reset_pin later
      else sweep self_reset_pin later
  end.

Definition incremental_mode (self_reset_pin : option Z) : M D unit :=
  rates <- lift (range (baudrate_min opts) (baudrate_max opts) (baudrate_inc opts)) ;;
  sweep self_reset_pin rates.

Definition list_mode (self_reset_pin : option Z) : M D unit :=
  rates <- lift (comprehension (fun b => int (strip b))
                   (split "," (baudrate_list opts))) ;;
  sweep self_reset_pin rates.

(** [self.connect()] is called before the [try]: what it raises is not
    caught here. *)
Definition run : M D unit :=
  connected <- invoke Connect (connect hw) ;;
  if negb connected then ret tt
  else
    try_except
      (valid <- check_options ;;
       if valid then
         self_reset_pin <- init ;;
         log HEADER (Text "Starting baudrate detection, turn on your target device now") ;;
         log HEADER (Text "Press Ctrl+C to cancel") ;;
         if String.eqb (upper (mode opts)) "INCREMENTAL" then
           incremental_mode self_reset_pin
         else if String.eqb (upper (mode opts)) "LIST" then
           list_mode self_reset_pin
         else ret tt
       else ret tt)
      (fun err => log ERROR (Raised err)).

(** *** The same loop with the scorer's value made explicit

    [process_baudrate] branches on the result of [entropy], a computation
    on reals.  The forms below replace it by its value [Entropy.score]; they
    are proved equal to the originals ([process_baudrate_run_eq],
    [sweep_run_eq]) and serve to run the module on concrete targets. *)

Definition result_lines (baudrate : Z) (received : list byte) (h : R) : list event :=
  let line := Log USER_INTERACT (Result baudrate h (bytearray_to_hex_repr received)) in
  match min_entropy opts with
  | Some least => if Rge_dec h least then [line] else []
  | None => [line]
  end.

Definition process_baudrate_run (baudrate : Z) : M D (option bool) :=
  fun d =>
    let w := while_loop max_passes baudrate (Locals 0 0 []) d in
    match result w with
    | inl e => Out (inl e) (final w) (ProgressStart :: events w)
    | inr (inr v) => Out (inr v) (final w) (ProgressStart :: events w)
    | inr (inl l) =>
        Out (inr None) (final w)
          (ProgressStart :: events w
             ++ result_lines baudrate (received_bytes l)
                  (Entropy.score (received_bytes l)))
    end.

Fixpoint sweep_run (self_reset_pin : option Z) (rates : list Z) : M D unit :=
  match rates with
  | [] => ret tt
  | baudrate :: later =>
      changed <- change_baudrate baudrate ;;
      if changed then
        reset_target self_reset_pin ;;
        found <- process_baudrate_run baudrate ;;
        if truthy found then ret tt
        else sweep_run self_reset_pin later
      else sweep_run self_reset_pin later
  end.
End WithAdapter.

(** The number of passes the [while] can still make from [l]. *)
Definition passes_left (l : locals) : nat :=
  (Z.to_nat (threshold - count l) + Z.to_nat (3 - loop l))%nat.

(** *** Reading the event log *)

Definition configured_rate (e : event) : option Z :=
  match e with
  | Call (Configure baudrate) => Some baudrate
  | _ => None
  end.

Fixpoint filter_map {A B : Type} (f : A -> option B) (l : list A) : list B :=
  match l with
  | [] => []
  | x :: rest =>
      match f x with
      | Some y => y :: filter_map f rest
      | None => filter_map f rest
      end
  end.

(** The rates passed to [configure], in order. *)
Definition configured (evs : list event) : list Z := filter_map configured_rate evs.

Definition is_transmit (e : event) : bool :=
  match e with
  | Call (Transmit _) => true
  | _ => false
  end.

(** The number of [transmit] calls. *)
Definition transmits (evs : list event) : nat := List.length (filter is_transmit evs).

Definition is_receive (e : event) : bool :=
  match e with
  | Call (Receive _) => true
  | _ => false
  end.

(** The number of [receive] calls. *)
Definition receives (evs : list event) : nat := List.length (filter is_receive evs).

Definition got_data (e : event) : option (list byte) :=
  match e with
  | Got data => Some data
  | _ => None
  end.

(** What each successful [receive] returned, in order. *)
Definition gots (evs : list event) : list (list byte) := filter_map got_data evs.

(** The bytes the [receive] calls returned, in order. *)
Definition received (evs : list event) : list byte := concat (gots evs).

Definition printed_result (e : event) : option (Z * R * string) :=
  match e with
  | Log USER_INTERACT (Result baudrate entropy got) => Some (baudrate, entropy, got)
  | _ => None
  end.

(** The result lines printed, in order. *)
Definition printed (evs : list event) : list (Z * R * string) :=
  filter_map printed_result evs.

(** *** Shapes used to state what the loop does *)

Section PassKinds.
Context {D : Type} (hw : Adapter D) (opts : Options).

(** One pass of the loop: the three ways through the body, with what each does to the locals
    and to the log. *)

Inductive pass_kind (baudrate : Z) (l : locals) (d : D) : Prop :=
| pass_raised (e : exn) :
    result (pass hw opts baudrate l d) = inl e ->
    (transmits (events (pass hw opts baudrate l d)) = 0%nat
     \/ (transmits (events (pass hw opts baudrate l d)) = 1%nat
         /\ trigger opts = true /\ loop l < 3)) ->
    pass_kind baudrate l d
| pass_read (tmp : list byte) :
    result (wait_bytes hw d) = inr true ->
    result (pass hw opts baudrate l d)
      = inr (Next (Locals (count l + 1) (loop l) (received_bytes l ++ tmp))) ->
    transmits (events (pass hw opts baudrate l d)) = 0%nat ->
    receives (events (pass hw opts baudrate l d)) = 1%nat ->
    gots (events (pass hw opts baudrate l d)) = [tmp] ->
    printed (events (pass hw opts baudrate l d)) = [] ->
    pass_kind baudrate l d
| pass_trigger :
    result (wait_bytes hw d) = inr false ->
    trigger opts = true -> loop l < 3 ->
    result (pass hw opts baudrate l d)
      = inr (Next (Locals (count l) (loop l + 1) (received_bytes l))) ->
    transmits (events (pass hw opts baudrate l d)) = 1%nat ->
    receives (events (pass hw opts baudrate l d)) = 0%nat ->
    gots (events (pass hw opts baudrate l d)) = [] ->
    printed (events (pass hw opts baudrate l d)) = [] ->
    pass_kind baudrate l d
| pass_timeout :
    result (wait_bytes hw d) = inr false ->
    trigger opts && (loop l <? 3) = false ->
    result (pass hw opts baudrate l d) = inr (Return (Some false)) ->
    transmits (events (pass hw opts baudrate l d)) = 0%nat ->
    pass_kind baudrate l d.
End PassKinds.

(** When the loop runs to its end with locals [l'] from [l]: what [l']
    holds, in terms of the [receive] calls logged in [evs]. *)
Definition completed_with (fuel : nat) (l l' : locals) (evs : list event) : Prop :=
  count l' = count l + Z.of_nat (receives evs)
  /\ List.length (gots evs) = receives evs
  /\ received_bytes l' = (received_bytes l ++ received evs)%list
  /\ printed evs = []
  /\ (count l <= threshold -> count l' <= threshold)
  /\ ((passes_left l <= fuel)%nat -> threshold <= count l').
End BaudrateAnalyzer.

(** ** A scripted target, for running the module on concrete inputs *)

Module Sim.
Local Open Scope Z_scope.

(** [rx] is the adapter's receive buffer; the head of [arrivals] reaches
    it at each [in_waiting] poll, the head of [replies] at each
    [transmit]. *)
Record target : Type := Target {
  rx : list byte;
  arrivals : list (list byte);
  replies : list (list byte)
}.

Definition on_in_waiting (t : target) : (exn + Z) * target :=
  match arrivals t with
  | [] => (inr (Z.of_nat (List.length (rx t))), t)
  | chunk :: later =>
      (inr (Z.of_nat (List.length (rx t ++ chunk))),
       Target (rx t ++ chunk) later (replies t))
  end.

(** A [lossy] adapter returns no byte from [receive] and keeps its buffer. *)
Definition on_receive (lossy : bool) (size : Z) (t : target)
  : (exn + list byte) * target :=
  if lossy then (inr [], t)
  else (inr (firstn (Z.to_nat size) (rx t)),
        Target (skipn (Z.to_nat size) (rx t)) (arrivals t) (replies t)).

Definition on_transmit (data : list byte) (t : target) : (exn + unit) * target :=
  match replies t with
  | [] => (inr tt, t)
  | chunk :: later => (inr tt, Target (rx t ++ chunk) (arrivals t) later)
  end.

(** [configure] fails on the rates listed in [bad_rates]. *)
Definition on_configure (bad_rates : list Z) (baudrate : Z) (t : target)
  : (exn + unit) * target :=
  if existsb (Z.eqb baudrate) bad_rates
  then (inl (DeviceError "UART configure failed"), t)
  else (inr tt, t).

Definition adapter (bad_rates : list Z) (lossy : bool) : Adapter target := {|
  connect := fun t => (inr true, t);
  polls := fun _ => 2%nat;
  serial_in_waiting := fun t => (inr 0, t);
  serial_read := fun _ t => (inr [], t);
  uart_open := fun _ t => (inr tt, t);
  configure := on_configure bad_rates;
  in_waiting := on_in_waiting;
  receive := on_receive lossy;
  transmit := on_transmit;
  gpio_open := fun _ t => (inr tt, t);
  gpio_direction := fun t => (inr tt, t);
  gpio_status := fun _ t => (inr tt, t);
  sleep := fun _ t => (inr tt, t)
|}.

(** The default option values of the module, with the mode, the rate
    list and the trigger flag given. *)
Definition options (the_mode the_list : string) (with_trigger : bool) : Options := {|
  uart_interface := 0;
  mode := the_mode;
  reset_pin := None;
  trigger := with_trigger;
  reset_pol := "low";
  reset_hold := 1 # 10;
  reset_delay := 5 # 10;
  min_entropy := None;
  baudrate_min := 300;
  baudrate_max := 115200;
  baudrate_inc := 300;
  baudrate_list := the_list;
  trigger_char := [x0d; x0a]
|}.

(** The same with a minimum-entropy filter, in list mode, no trigger. *)
Definition filtering (least : R) (the_list : string) : Options := {|
  uart_interface := 0;
  mode := "list";
  reset_pin := None;
  trigger := false;
  reset_pol := "low";
  reset_hold := 1 # 10;
  reset_delay := 5 # 10;
  min_entropy := Some least;
  baudrate_min := 300;
  baudrate_max := 115200;
  baudrate_inc := 300;
  baudrate_list := the_list;
  trigger_char := [x0d; x0a]
|}.

(** Incremental mode from [lo] up to [hi] by [step], no trigger. *)
Definition incremental (lo hi step : Z) : Options := {|
  uart_interface := 0;
  mode := "incremental";
  reset_pin := None;
  trigger := false;
  reset_pol := "low";
  reset_hold := 1 # 10;
  reset_delay := 5 # 10;
  min_entropy := None;
  baudrate_min := lo;
  baudrate_max := hi;
  baudrate_inc := step;
  baudrate_list := "9600,19200,38400,57600,115200";
  trigger_char := [x0d; x0a]
|}.

(** A target that sends one ["A"] at every poll, [n] times. *)
Definition talking (n : nat) : target := Target [] (repeat [x41] n) [].

(** A target that answers each trigger with the next chunk of [answers]. *)
Definition answering (answers : list (list byte)) : target := Target [] [] answers.
End Sim.

(** ** Shapes of the event log used to state further properties *)

Module Shapes.
Import Py BaudrateAnalyzer.
Local Open Scope Z_scope.

Definition gpio_level (e : event) : option Z :=
  match e with
  | Call (GpioStatus v) => Some v
  | _ => None
  end.

(** The levels written to the reset line, in order. *)
Definition statuses (evs : list event) : list Z := filter_map gpio_level evs.

(** The level [init] leaves the reset line at: the inactive one. *)
Definition inactive_level (opts : Options) : Z :=
  if String.eqb (upper (reset_pol opts)) "LOW" then 1 else 0.

Definition is_call (e : event) : bool :=
  match e with
  | Call _ => true
  | _ => false
  end.

(** The events [process_baudrate] may log while working on [baudrate]:
    polls, single-byte reads, the trigger sequence, progress and result
    messages; nothing else. *)
Definition collector_event (opts : Options) (baudrate : Z) (e : event) : bool :=
  match e with
  | Call InWaiting => true
  | Call (Receive size) => size =? 1
  | Call (Transmit data) =>
      trigger opts && if list_eq_dec byte_eq_dec data (trigger_char opts) then true else false
  | Call (Sleep _) => trigger opts
  | Call _ => false
  | Got _ => true
  | Log INFO (Text _) => trigger opts
  | Log WARNING (NoData rate) => rate =? baudrate
  | Log USER_INTERACT (Result rate _ _) => rate =? baudrate
  | Log _ _ => false
  | ProgressStart | ProgressStatus _ | ProgressStop => true
  end.

(** [l] is [l'] with some elements left out, the order kept. *)
Inductive subseq {A : Type} : list A -> list A -> Prop :=
| subseq_nil : subseq [] []
| subseq_skip (x : A) (l l' : list A) : subseq l l' -> subseq l (x :: l')
| subseq_keep (x : A) (l l' : list A) : subseq l l' -> subseq (x :: l) (x :: l').

Definition is_warning (e : event) : bool :=
  match e with
  | Log WARNING _ => true
  | _ => false
  end.

(** How an exception [e] raised by a call inside the [try] of
    [change_baudrate] ends it, [calls] being the events up to and including
    that call and [d] the state it left: an [Exception] is logged and
    answered by [False], any other exception goes through. *)
Definition caught {D : Type} (e : exn) (d : D) (calls : list event) : outcome D bool :=
  if is_Exception e then Out (inr false) d (calls ++ [Log ERROR (Raised e)])
  else Out (inl e) d calls.
End Shapes.

(** * Properties *)

(** ** The entropy scorer *)

Module EntropyFacts.
Import Entropy.
Local Open Scope R_scope.

(** *** What [Counter] holds *)

Lemma Counter_snoc (buf : list byte) (b : byte) :
  Counter (buf ++ [b]) = counter_incr b (Counter buf).
Proof. unfold Counter. now rewrite fold_left_app. Qed.

Lemma counter_incr_keys (b : byte) (p : counter) (x : byte) :
  In x (map fst (counter_incr b p)) <-> x = b \/ In x (map fst p).
Proof.
  induction p as [|[k c] rest IH]; simpl.
  - intuition.
  - destruct (byte_eq_dec k b) as [->|Hne]; simpl.
    + intuition.
    + rewrite IH. intuition.
Qed.

Lemma counter_incr_NoDup (b : byte) (p : counter) :
  NoDup (map fst p) -> NoDup (map fst (counter_incr b p)).
Proof.
  induction p as [|[k c] rest IH]; simpl; intros Hnd.
  - constructor; [intros []|constructor].
  - inversion Hnd as [|? ? Hnotin Hrest]; subst.
    destruct (byte_eq_dec k b) as [->|Hne]; simpl.
    + now constructor.
    + constructor; [|now apply IH].
      rewrite counter_incr_keys. intros [->|Hin]; [now apply Hne|now apply Hnotin].
Qed.

Lemma counter_incr_total (b : byte) (p : counter) :
  total (values (counter_incr b p)) = S (total (values p)).
Proof.
  unfold values.
  induction p as [|[k c] rest IH]; simpl; [reflexivity|].
  destruct (byte_eq_dec k b); simpl; [reflexivity|].
  rewrite IH. lia.
Qed.

Lemma counter_incr_In (b : byte) (p : counter) (k : byte) (c : nat) :
  NoDup (map fst p) ->
  In (k, c) (counter_incr b p) ->
  (k = b /\ ((c = 1%nat /\ ~ In b (map fst p)) \/ exists c', c = S c' /\ In (b, c') p))
  \/ (k <> b /\ In (k, c) p).
Proof.
  induction p as [|[k0 c0] rest IH]; simpl; intros Hnd Hin.
  - destruct Hin as [Heq|[]]. inversion Heq; subst. left. split; [reflexivity|].
    left. split; [reflexivity|tauto].
  - inversion Hnd as [|? ? Hnotin Hrest]; subst.
    destruct (byte_eq_dec k0 b) as [->|Hne]; simpl in Hin.
    + destruct Hin as [Heq|Hin].
      * inversion Heq; subst. left. split; [reflexivity|]. right. exists c0. split; [reflexivity|now left].
      * right. split; [|now right].
        intros ->. apply Hnotin. now apply (in_map fst _ (b, c)).
    + destruct Hin as [Heq|Hin].
      * inversion Heq; subst. right. split; [assumption|now left].
      * destruct (IH Hrest Hin) as [[-> Hcase]|[Hkb Hin']].
        -- left. split; [reflexivity|].
           destruct Hcase as [[-> Hno]|[c' [-> Hin']]].
           ++ left. split; [reflexivity|]. intros [Heq|Hin']; [now apply Hne|now apply Hno].
           ++ right. exists c'. split; [reflexivity|now right].
        -- right. split; [assumption|now right].
Qed.

(** The counter of a buffer: distinct keys, each with its number of
    occurrences, and every byte of the buffer is a key. *)
Lemma Counter_spec (buf : list byte) :
  NoDup (map fst (Counter buf))
  /\ (forall x, In x (map fst (Counter buf)) <-> In x buf)
  /\ (forall k c, In (k, c) (Counter buf) -> c = count_occ byte_eq_dec buf k /\ (0 < c)%nat)
  /\ total (values (Counter buf)) = List.length buf.
Proof.
  induction buf as [|b buf IH] using rev_ind.
  - cbn. repeat split; try constructor; try tauto.
  - destruct IH as (Hnd & Hkeys & Hcnt & Htot).
    rewrite Counter_snoc. split; [now apply counter_incr_NoDup|].
    split; [|split].
    + intros x. rewrite counter_incr_keys, Hkeys, in_app_iff. simpl. intuition.
    + intros k c Hin. rewrite count_occ_app. simpl.
      destruct (counter_incr_In b _ k c Hnd Hin) as [[-> Hcase]|[Hkb Hin']].
      * destruct (byte_eq_dec b b) as [_|Hbad]; [|now elim Hbad].
        destruct Hcase as [[-> Hno]|[c' [-> Hin']]].
        -- rewrite Hkeys in Hno.
           apply (count_occ_not_In byte_eq_dec) in Hno. lia.
        -- destruct (Hcnt _ _ Hin') as [-> _]. lia.
      * destruct (byte_eq_dec b k) as [Hbad|_]; [now elim Hkb|].
        destruct (Hcnt _ _ Hin') as [-> Hpos]. lia.
    + rewrite counter_incr_total, Htot, length_app. simpl. lia.
Qed.

Lemma Counter_values_pos (buf : list byte) :
  Forall (fun c => (0 < c)%nat) (values (Counter buf)).
Proof.
  destruct (Counter_spec buf) as (_ & _ & Hcnt & _).
  apply Forall_forall. intros c Hin. unfold values in Hin.
  apply in_map_iff in Hin. destruct Hin as [[k c'] [Heq Hin]]. simpl in Heq. subst.
  now destruct (Hcnt _ _ Hin).
Qed.

(** *** Evaluating the generator *)

Lemma INR_total_pos (cs : list nat) :
  cs <> [] -> Forall (fun c => (0 < c)%nat) cs -> 0 < INR (total cs).
Proof.
  intros Hne Hpos. destruct cs as [|c cs]; [now elim Hne|].
  inversion Hpos; subst. simpl. apply lt_0_INR. lia.
Qed.

Lemma term_defined (lns : R) (count : nat) :
  0 < lns -> (0 < count)%nat -> term lns count = inr (plogp lns count).
Proof.
  intros Hl Hc. unfold term, true_div, plogp.
  destruct (Req_dec_T lns 0) as [He|_]; [lra|]. simpl.
  assert (Hq : 0 < INR count / lns).
  { apply Rdiv_lt_0_compat; [now apply lt_0_INR|assumption]. }
  unfold math_log, true_div.
  destruct (Rlt_dec 0 (INR count / lns)) as [_|Hn]; [|now elim Hn].
  destruct (Rlt_dec 0 2) as [_|Hn]; [|lra].
  destruct (Req_dec_T (ln 2) 0) as [He|_]; [|reflexivity].
  pose proof ln_lt_2. lra.
Qed.

Lemma py_sum_defined (lns : R) (cs : list nat) (acc : R) :
  0 < lns -> Forall (fun c => (0 < c)%nat) cs ->
  py_sum cs (term lns) acc = inr (acc + Rsum (map (plogp lns) cs)).
Proof.
  intros Hl Hpos. revert acc.
  induction Hpos as [|c cs Hc Hcs IH]; intros acc; simpl.
  - f_equal. lra.
  - rewrite term_defined by assumption. simpl. rewrite IH. f_equal. lra.
Qed.

(** On a non-empty buffer no term raises, and the score is the negated
    sum of [p * log2 p] over the counts. *)
Lemma entropy_defined (buf : list byte) :
  buf <> [] ->
  entropy buf =
    inr (- Rsum (map (plogp (INR (List.length buf))) (values (Counter buf)))).
Proof.
  intros Hne. unfold entropy.
  rewrite py_sum_defined.
  - simpl. f_equal. lra.
  - apply lt_0_INR. destruct buf; [now elim Hne|simpl; lia].
  - apply Counter_values_pos.
Qed.

(** *** Bounds on the sum *)

Lemma ln_le_minus_1 (x : R) : 0 < x -> ln x <= x - 1.
Proof.
  intros Hx. pose proof (exp_ineq1_le (ln x)) as H.
  rewrite exp_ln in H by assumption. lra.
Qed.

Lemma ln2_pos : 0 < ln 2.
Proof. pose proof ln_lt_2. lra. Qed.

Lemma Rsum_map_INR (n : R) (cs : list nat) :
  Rsum (map (fun c => INR c / n) cs) = INR (total cs) / n.
Proof.
  induction cs as [|c cs IH]; simpl.
  - unfold Rdiv. lra.
  - rewrite IH, plus_INR. unfold Rdiv. lra.
Qed.

Lemma Rsum_le (f g : nat -> R) (cs : list nat) :
  Forall (fun c => f c <= g c) cs -> Rsum (map f cs) <= Rsum (map g cs).
Proof. induction 1; simpl; lra. Qed.

Lemma Rsum_plus (f g : nat -> R) (cs : list nat) :
  Rsum (map (fun c => f c + g c) cs) = Rsum (map f cs) + Rsum (map g cs).
Proof. induction cs; simpl; lra. Qed.

Lemma Rsum_scal (a : R) (f : nat -> R) (cs : list nat) :
  Rsum (map (fun c => a * f c) cs) = a * Rsum (map f cs).
Proof. induction cs; simpl; lra. Qed.

Lemma Rsum_const (a : R) (cs : list nat) :
  Rsum (map (fun _ => a) cs) = INR (List.length cs) * a.
Proof.
  induction cs as [|c cs IH]; [simpl; lra|].
  change (Rsum (map (fun _ => a) (c :: cs))) with (a + Rsum (map (fun _ => a) cs)).
  rewrite IH. change (List.length (c :: cs)) with (S (List.length cs)).
  rewrite S_INR. lra.
Qed.

Lemma Rsum_ext (f g : nat -> R) (cs : list nat) :
  Forall (fun c => f c = g c) cs -> Rsum (map f cs) = Rsum (map g cs).
Proof. induction 1; simpl; [reflexivity|]. congruence. Qed.

Lemma In_le_total (c : nat) (cs : list nat) : In c cs -> (c <= total cs)%nat.
Proof.
  induction cs as [|x cs IH]; simpl; [tauto|].
  intros [->|Hin]; [lia|]. specialize (IH Hin). lia.
Qed.

Lemma plogp_nonpos (n c : nat) :
  (0 < c)%nat -> (c <= n)%nat -> plogp (INR n) c <= 0.
Proof.
  intros Hc Hcn. unfold plogp.
  assert (Hn : 0 < INR n) by (apply lt_0_INR; lia).
  assert (Hc' : 0 < INR c) by (apply lt_0_INR; lia).
  assert (Hle : INR c <= INR n) by now apply le_INR.
  assert (Hq : 0 < INR c / INR n) by now apply Rdiv_lt_0_compat.
  assert (Hi : 0 < / INR n) by now apply Rinv_0_lt_compat.
  assert (Hq1 : INR c / INR n <= 1).
  { replace 1 with (INR n * / INR n) by (field; lra).
    unfold Rdiv. apply Rmult_le_compat_r; lra. }
  pose proof (ln_le_minus_1 _ Hq) as Hln.
  pose proof ln2_pos as H2.
  assert (Hi2 : 0 < / ln 2) by now apply Rinv_0_lt_compat.
  assert (Hl : ln (INR c / INR n) / ln 2 <= 0).
  { unfold Rdiv at 2. nra. }
  nra.
Qed.

(** Gibbs' inequality, one term at a time: with [p = c / n] and [k]
    positive, [- p * ln p <= 1 / k - p + p * ln k]. *)
Lemma plogp_gibbs (n k : R) (c : nat) :
  0 < n -> 0 < k -> (0 < c)%nat ->
  - plogp n c <= (/ k + (INR c / n) * (ln k - 1)) / ln 2.
Proof.
  intros Hn Hk Hc. unfold plogp.
  assert (Hc' : 0 < INR c) by (apply lt_0_INR; lia).
  set (p := INR c / n).
  assert (Hp : 0 < p) by now apply Rdiv_lt_0_compat.
  assert (Hx : 0 < / (k * p)).
  { apply Rinv_0_lt_compat. now apply Rmult_lt_0_compat. }
  pose proof (ln_le_minus_1 _ Hx) as Hln.
  rewrite ln_Rinv in Hln by now apply Rmult_lt_0_compat.
  rewrite ln_mult in Hln by assumption.
  pose proof ln2_pos as H2.
  assert (Hmul : p * (- (ln k + ln p)) <= p * (/ (k * p) - 1)).
  { apply Rmult_le_compat_l; lra. }
  assert (Hinv : p * / (k * p) = / k).
  { field. split; lra. }
  assert (Hnum : - (p * ln p) <= / k + p * (ln k - 1)).
  { rewrite <- Hinv. lra. }
  unfold Rdiv.
  replace (- (p * (ln p * / ln 2))) with (- (p * ln p) * / ln 2) by ring.
  apply Rmult_le_compat_r; [|assumption].
  left. now apply Rinv_0_lt_compat.
Qed.

(** The negated sum is at most [log2] of the number of distinct values. *)
Lemma neg_sum_le_log2_length (cs : list nat) :
  cs <> [] -> Forall (fun c => (0 < c)%nat) cs ->
  - Rsum (map (plogp (INR (total cs))) cs) <= ln (INR (List.length cs)) / ln 2.
Proof.
  intros Hne Hpos.
  set (n := INR (total cs)). set (k := INR (List.length cs)).
  assert (Hn : 0 < n) by now apply INR_total_pos.
  assert (Hk : 0 < k).
  { apply lt_0_INR. destruct cs; [now elim Hne|simpl; lia]. }
  pose proof ln2_pos as H2.
  replace (- Rsum (map (plogp n) cs))
    with (Rsum (map (fun c => -1 * plogp n c) cs))
    by (rewrite Rsum_scal; lra).
  eapply Rle_trans.
  - apply (Rsum_le _ (fun c => / ln 2 * (/ k + (ln k - 1) * (INR c / n)))).
    eapply Forall_impl; [|exact Hpos]. intros c Hc. simpl.
    pose proof (plogp_gibbs n k c Hn Hk Hc) as H. unfold Rdiv in *. lra.
  - rewrite Rsum_scal, Rsum_plus, Rsum_const, Rsum_scal, Rsum_map_INR.
    fold n k. right. field. split; lra.
Qed.

Lemma neg_sum_nonneg (cs : list nat) :
  Forall (fun c => (0 < c)%nat) cs ->
  0 <= - Rsum (map (plogp (INR (total cs))) cs).
Proof.
  intros Hpos.
  assert (H : Rsum (map (plogp (INR (total cs))) cs) <= Rsum (map (fun _ => 0) cs)).
  { apply Rsum_le. apply Forall_forall. intros c Hin.
    apply plogp_nonpos; [|now apply In_le_total].
    rewrite Forall_forall in Hpos. now apply Hpos. }
  rewrite Rsum_const in H. lra.
Qed.

(** *** At most 256 distinct byte values *)

Lemma NoDup_bytes_length (l : list byte) : NoDup l -> (List.length l <= 256)%nat.
Proof.
  intros Hnd.
  assert (Hinj : Injective Byte.to_nat).
  { intros x y Heq. pose proof (Byte.of_to_nat x) as Hx.
    rewrite Heq, Byte.of_to_nat in Hx. congruence. }
  pose proof (Injective_map_NoDup Hinj Hnd) as Hnd'.
  assert (Hincl : incl (map Byte.to_nat l) (seq 0 256)).
  { intros n Hin. apply in_map_iff in Hin. destruct Hin as [b [<- _]].
    apply in_seq. pose proof (Byte.to_nat_bounded b). lia. }
  pose proof (NoDup_incl_length Hnd' Hincl) as Hlen.
  now rewrite length_map, length_seq in Hlen.
Qed.

Lemma ln_le_compat (x y : R) : 0 < x -> x <= y -> ln x <= ln y.
Proof.
  intros Hx Hle. destruct Hle as [Hlt|Heq].
  - left. now apply ln_increasing.
  - subst. lra.
Qed.

Lemma ln_256 : ln 256 = 8 * ln 2.
Proof.
  replace 256 with (2 ^ 8) by (simpl; lra).
  rewrite ln_pow by lra. simpl. lra.
Qed.

Lemma Counter_length_nodup (buf : list byte) :
  List.length (Counter buf) = List.length (nodup byte_eq_dec buf).
Proof.
  destruct (Counter_spec buf) as (Hnd & Hkeys & _ & _).
  rewrite <- (length_map fst). apply Permutation_length.
  apply NoDup_Permutation; [assumption|apply NoDup_nodup|].
  intros x. now rewrite Hkeys, nodup_In.
Qed.

Lemma total_uniform (c : nat) (cs : list nat) :
  Forall (fun x => x = c) cs -> total cs = (List.length cs * c)%nat.
Proof. induction 1; simpl; [reflexivity|]. subst. lia. Qed.

Lemma Counter_nonempty (buf : list byte) : buf <> [] -> Counter buf <> [].
Proof.
  intros Hne Hnil. destruct buf as [|b buf]; [now elim Hne|].
  destruct (Counter_spec (b :: buf)) as (_ & Hkeys & _ & _).
  rewrite Hnil in Hkeys. apply (Hkeys b). now left.
Qed.

(** A buffer made of [k] distinct values, each occurring [c] times. *)
Lemma entropy_uniform (buf : list byte) (k c : nat) :
  buf <> [] ->
  List.length (nodup byte_eq_dec buf) = k ->
  (forall x, In x buf -> count_occ byte_eq_dec buf x = c) ->
  entropy buf = inr (ln (INR k) / ln 2).
Proof.
  intros Hne Hk Hc. rewrite entropy_defined by assumption. f_equal.
  destruct (Counter_spec buf) as (Hnd & Hkeys & Hcnt & Htot).
  assert (Hall : Forall (fun x => x = c) (values (Counter buf))).
  { apply Forall_forall. intros x Hin. unfold values in Hin.
    apply in_map_iff in Hin. destruct Hin as [[b x'] [Heq Hin]]. simpl in Heq. subst x'.
    pose proof (in_map fst _ _ Hin) as Hkey. simpl in Hkey.
    destruct (Hcnt _ _ Hin) as [-> _]. apply Hc. now apply Hkeys. }
  assert (Hlen : List.length (values (Counter buf)) = k).
  { unfold values. now rewrite length_map, Counter_length_nodup. }
  assert (Hkpos : (0 < k)%nat).
  { rewrite <- Hlen. unfold values. rewrite length_map.
    pose proof (Counter_nonempty buf Hne). destruct (Counter buf); [congruence|simpl; lia]. }
  assert (Hcpos : (0 < c)%nat).
  { pose proof (Counter_values_pos buf) as Hpos.
    destruct (values (Counter buf)) as [|x xs]; [simpl in Hlen; lia|].
    inversion Hpos; inversion Hall; subst. assumption. }
  rewrite <- Htot, (total_uniform c _ Hall), Hlen.
  rewrite (Rsum_ext (plogp (INR (k * c))) (fun _ => plogp (INR (k * c)) c)).
  2:{ eapply Forall_impl; [|exact Hall]. intros x ->. reflexivity. }
  rewrite Rsum_const, Hlen. unfold plogp. rewrite mult_INR.
  assert (HK : 0 < INR k) by now apply lt_0_INR.
  assert (HC : 0 < INR c) by now apply lt_0_INR.
  replace (INR c / (INR k * INR c)) with (/ INR k) by (field; lra).
  rewrite ln_Rinv by assumption.
  pose proof ln2_pos. field. lra.
Qed.

(** The scorer's formula over exact reals.  For every non-empty byte
    sequence it is defined and lies in [[0, 8]]; it is 0 when all the bytes
    are one value; and when the sequence consists of [k] distinct byte
    values each occurring equally often ([c] times), it is [log2 k].  This
    is Shannon's entropy, not the double the interpreter returns: there
    every quotient, every logarithm (the C library's) and every addition
    rounds, so the equality with [log2 k] and the bound 8 are not claimed of
    the code. *)
Theorem entropy_range_single_uniform (b_buff : list byte) :
  b_buff <> [] ->
  (exists h, entropy b_buff = inr h /\ 0 <= h <= 8)
  /\ ((forall x y, In x b_buff -> In y b_buff -> x = y) -> entropy b_buff = inr 0)
  /\ (forall k c : nat,
        List.length (nodup byte_eq_dec b_buff) = k ->
        (forall x, In x b_buff -> count_occ byte_eq_dec b_buff x = c) ->
        entropy b_buff = inr (ln (INR k) / ln 2)).
Proof.
  intros Hne. split; [|split].
  - rewrite entropy_defined by assumption. eexists. split; [reflexivity|].
    destruct (Counter_spec b_buff) as (Hnd & _ & _ & Htot).
    pose proof (Counter_values_pos b_buff) as Hpos.
    rewrite <- Htot. split; [now apply neg_sum_nonneg|].
    assert (Hv : values (Counter b_buff) <> []).
    { unfold values. pose proof (Counter_nonempty b_buff Hne).
      destruct (Counter b_buff); [congruence|discriminate]. }
    eapply Rle_trans; [now apply neg_sum_le_log2_length|].
    assert (Hlen : (List.length (values (Counter b_buff)) <= 256)%nat).
    { unfold values. rewrite length_map, <- (length_map fst).
      now apply NoDup_bytes_length. }
    assert (Hk : 0 < INR (List.length (values (Counter b_buff)))).
    { apply lt_0_INR. destruct (values (Counter b_buff)); [congruence|simpl; lia]. }
    assert (Hle : ln (INR (List.length (values (Counter b_buff)))) <= ln 256).
    { apply ln_le_compat; [assumption|].
      replace 256 with (INR 256) by (simpl; lra). now apply le_INR. }
    rewrite ln_256 in Hle. pose proof ln2_pos as H2.
    assert (Hi2 : 0 < / ln 2) by now apply Rinv_0_lt_compat.
    unfold Rdiv. replace 8 with (8 * ln 2 * / ln 2) by (field; lra).
    apply Rmult_le_compat_r; lra.
  - intros Hsame.
    destruct b_buff as [|b rest]; [now elim Hne|].
    assert (Hrep : forall x, In x (b :: rest) -> x = b).
    { intros x Hx. apply Hsame; [assumption|now left]. }
    rewrite (entropy_uniform (b :: rest) 1 (List.length (b :: rest))).
    + simpl. rewrite ln_1. unfold Rdiv. now rewrite Rmult_0_l.
    + discriminate.
    + assert (Hnd : nodup byte_eq_dec (b :: rest) = [b]).
      { pose proof (NoDup_nodup byte_eq_dec (b :: rest)) as Hn.
        assert (Hin : forall x, In x (nodup byte_eq_dec (b :: rest)) -> x = b).
        { intros x Hx. apply Hrep. now apply nodup_In in Hx. }
        assert (Hb : In b (nodup byte_eq_dec (b :: rest))) by (apply nodup_In; now left).
        destruct (nodup byte_eq_dec (b :: rest)) as [|y [|z l]]; [destruct Hb| |].
        - f_equal. apply Hin. now left.
        - exfalso. inversion Hn as [|? ? Hnot _]; subst. apply Hnot.
          rewrite (Hin y) by now left. rewrite (Hin z) by (right; now left). now left. }
      now rewrite Hnd.
    + intros x Hx. rewrite (Hrep x Hx).
      assert (Hall : forall l, (forall y, In y l -> y = b) ->
                       count_occ byte_eq_dec l b = List.length l).
      { induction l as [|y l IH]; intros Hl; [reflexivity|].
        simpl. destruct (byte_eq_dec y b) as [_|Hbad].
        - f_equal. apply IH. intros z Hz. apply Hl. now right.
        - elim Hbad. apply Hl. now left. }
      now apply Hall.
  - intros k c. now apply entropy_uniform.
Qed.

(** The formula at work: two values, twice each, score [log2 2]. *)
Lemma entropy_range_single_uniform_witness :
  [x41; x41; x42; x42] <> []
  /\ (exists h, entropy [x41; x41; x42; x42] = inr h /\ 0 <= h <= 8)
  /\ entropy [x41; x41; x42; x42] = inr (ln (INR 2) / ln 2).
Proof.
  assert (Hne : [x41; x41; x42; x42] <> []) by discriminate.
  split; [exact Hne|]. split.
  - exact (proj1 (entropy_range_single_uniform _ Hne)).
  - apply (proj2 (proj2 (entropy_range_single_uniform _ Hne)) 2%nat 2%nat).
    + reflexivity.
    + intros x [<-|[<-|[<-|[<-|[]]]]]; reflexivity.
Defined.

Lemma entropy_never_raises (b_buff : list byte) :
  exists h, entropy b_buff = inr h.
Proof.
  destruct b_buff as [|b rest].
  - exists (- 0). reflexivity.
  - eexists. now apply entropy_defined.
Qed.

(** **** C10.  The scorer is total: it raises on no byte sequence, and on
    the empty one it returns 0, because the sum ranges over no count and
    the quotient by the zero length is never formed. *)
Theorem entropy_total :
  entropy [] = inr 0 /\ forall b_buff, exists h, entropy b_buff = inr h.
Proof.
  split.
  - unfold entropy. simpl. f_equal. lra.
  - apply entropy_never_raises.
Qed.
End EntropyFacts.

(** ** The sweep and the sample collector *)

Module AnalyzerFacts.
Import Py BaudrateAnalyzer.
Local Open Scope Z_scope.
Local Arguments Z.add : simpl never.
Local Arguments Z.sub : simpl never.
Local Arguments Z.ltb : simpl never.
Local Arguments Z.to_nat : simpl never.
Local Arguments Z.of_nat : simpl never.

(** *** Reading the log of a concatenation *)

Lemma filter_map_app {A B : Type} (f : A -> option B) (l l' : list A) :
  filter_map f (l ++ l') = filter_map f l ++ filter_map f l'.
Proof.
  induction l as [|x l IH]; simpl; [reflexivity|].
  destruct (f x); simpl; now rewrite IH.
Qed.

Lemma configured_app (l l' : list event) :
  configured (l ++ l') = configured l ++ configured l'.
Proof. apply filter_map_app. Qed.

Lemma printed_app (l l' : list event) :
  printed (l ++ l') = printed l ++ printed l'.
Proof. apply filter_map_app. Qed.

Lemma transmits_app (l l' : list event) :
  transmits (l ++ l') = (transmits l + transmits l')%nat.
Proof. unfold transmits. now rewrite filter_app, length_app. Qed.

Lemma receives_app (l l' : list event) :
  receives (l ++ l') = (receives l + receives l')%nat.
Proof. unfold receives. now rewrite filter_app, length_app. Qed.

Lemma gots_app (l l' : list event) : gots (l ++ l') = gots l ++ gots l'.
Proof. apply filter_map_app. Qed.

Lemma received_app (l l' : list event) :
  received (l ++ l') = received l ++ received l'.
Proof. unfold received. now rewrite gots_app, concat_app. Qed.

(** *** The scorer's value *)

Lemma entropy_score (buf : list byte) :
  Entropy.entropy buf = inr (Entropy.score buf).
Proof.
  unfold Entropy.score.
  destruct (EntropyFacts.entropy_never_raises buf) as [h ->]. reflexivity.
Qed.

Section WithAdapter.
Context {D : Type} (hw : Adapter D) (opts : Options).

(** *** Computations are compared state by state *)

Lemma bind_ext {A B : Type} (m : M D A) (f g : A -> M D B) (d : D) :
  (forall a d', f a d' = g a d') -> bind m f d = bind m g d.
Proof.
  intros Hfg. unfold bind. destruct (result (m d)); [reflexivity|].
  now rewrite Hfg.
Qed.

(** *** The busy-wait only polls *)

Lemma poll_events (n : nat) (d : D) :
  Forall (fun e => e = Call InWaiting) (events (poll hw n d)).
Proof.
  revert d. induction n as [|n IH]; intros d; simpl; [constructor|].
  unfold bind, uart_in_waiting, invoke. simpl.
  destruct (in_waiting hw d) as [[e|w] d1]; simpl.
  - repeat constructor.
  - destruct (0 <? w); simpl; [repeat constructor|].
    constructor; [reflexivity|apply IH].
Qed.

Lemma wait_bytes_events (d : D) :
  Forall (fun e => e = Call InWaiting) (events (wait_bytes hw d)).
Proof. apply poll_events. Qed.

Lemma only_polls_transmits (evs : list event) :
  Forall (fun e => e = Call InWaiting) evs -> transmits evs = 0%nat.
Proof. induction 1 as [|e evs -> _ IH]; [reflexivity|exact IH]. Qed.

Lemma only_polls_receives (evs : list event) :
  Forall (fun e => e = Call InWaiting) evs -> receives evs = 0%nat.
Proof. induction 1 as [|e evs -> _ IH]; [reflexivity|exact IH]. Qed.

Lemma only_polls_gots (evs : list event) :
  Forall (fun e => e = Call InWaiting) evs -> gots evs = [].
Proof. induction 1 as [|e evs -> _ IH]; [reflexivity|exact IH]. Qed.

Lemma only_polls_printed (evs : list event) :
  Forall (fun e => e = Call InWaiting) evs -> printed evs = [].
Proof. induction 1 as [|e evs -> _ IH]; [reflexivity|exact IH]. Qed.

Lemma pass_cases (baudrate : Z) (l : locals) (d : D) :
  pass_kind hw opts baudrate l d.
Proof.
  pose proof (wait_bytes_events d) as Hw.
  pose proof (only_polls_transmits _ Hw) as Ht.
  pose proof (only_polls_receives _ Hw) as Hr.
  pose proof (only_polls_gots _ Hw) as Hg.
  pose proof (only_polls_printed _ Hw) as Hp.
  destruct (wait_bytes hw d) as [[e|[|]] d1 ev1] eqn:Hwait; simpl in *.
  - apply pass_raised with e; unfold pass, bind; rewrite Hwait; simpl;
      [reflexivity|now left].
  - destruct (receive hw 1 d1) as [[e|tmp] d2] eqn:Hrecv.
    + apply pass_raised with e;
        unfold pass, bind, uart_receive, bind, invoke; rewrite Hwait; simpl;
        rewrite Hrecv; simpl; [reflexivity|left].
      now rewrite transmits_app, Ht.
    + apply pass_read with tmp;
        unfold pass, bind, uart_receive, bind, invoke, emit, ret;
        rewrite ?Hwait; simpl; rewrite ?Hrecv; simpl; try reflexivity.
      * now rewrite transmits_app, Ht.
      * now rewrite receives_app, Hr.
      * now rewrite gots_app, Hg.
      * now rewrite printed_app, Hp.
  - destruct (trigger opts && (loop l <? 3)) eqn:Htrig.
    + pose proof Htrig as Htrig'.
      apply andb_true_iff in Htrig'. destruct Htrig' as [Htr Hlt].
      apply Z.ltb_lt in Hlt.
      destruct (transmit hw (trigger_char opts) d1) as [[e|[]] d2] eqn:Htx.
      * apply pass_raised with e;
          unfold pass, bind, trigger_device, bind, log, emit, invoke;
          rewrite Hwait; simpl; rewrite Htrig; simpl; rewrite Htx; simpl;
          [reflexivity|right].
        split; [|now split]. now rewrite transmits_app, Ht.
      * destruct (sleep hw (2 # 10) d2) as [[e|[]] d3] eqn:Hsl.
        -- apply pass_raised with e;
             unfold pass, bind, trigger_device, bind, log, emit, invoke, time_sleep;
             rewrite Hwait; simpl; rewrite Htrig; simpl; rewrite Htx; simpl;
             rewrite Hsl; simpl; [reflexivity|right].
           split; [|now split]. now rewrite transmits_app, Ht.
        -- apply pass_trigger; try assumption;
             unfold pass, bind, trigger_device, bind, log, emit, invoke, time_sleep, ret;
             rewrite ?Hwait; simpl; rewrite ?Htrig; simpl; rewrite ?Htx; simpl;
             rewrite ?Hsl; simpl; try reflexivity.
           ++ now rewrite transmits_app, Ht.
           ++ now rewrite receives_app, Hr.
           ++ now rewrite gots_app, Hg.
           ++ now rewrite printed_app, Hp.
    + apply pass_timeout; try assumption;
        unfold pass, bind, log, emit, ret;
        rewrite ?Hwait; simpl; rewrite ?Htrig; simpl; try reflexivity.
      now rewrite transmits_app, Ht.
Qed.
(** *** The [while] loop *)

Lemma while_loop_exit (fuel : nat) (baudrate : Z) (l : locals) (d : D) :
  threshold <= count l ->
  while_loop hw opts fuel baudrate l d = Out (inr (inl l)) d [].
Proof.
  intros Hc. apply Z.ltb_ge in Hc.
  destruct fuel; simpl; now rewrite Hc.
Qed.

Lemma while_loop_step (fuel : nat) (baudrate : Z) (l : locals) (d : D) :
  count l < threshold ->
  while_loop hw opts (S fuel) baudrate l d
  = bind (pass hw opts baudrate l)
      (fun f => match f with
                | Next l' => while_loop hw opts fuel baudrate l'
                | Return v => ret (inr v)
                end) d.
Proof. intros Hc. apply Z.ltb_lt in Hc. simpl. now rewrite Hc. Qed.

(** With [passes_left l] passes allowed the loop reaches its end: more
    fuel changes nothing. *)
Lemma while_loop_fuel (baudrate : Z) (fuel fuel' : nat) (l : locals) (d : D) :
  (passes_left l <= fuel)%nat -> (passes_left l <= fuel')%nat ->
  while_loop hw opts fuel baudrate l d = while_loop hw opts fuel' baudrate l d.
Proof.
  revert fuel' l d. induction fuel as [|fuel IH]; intros fuel' l d Hf Hf'.
  - assert (Hc : threshold <= count l) by (unfold passes_left, threshold in *; lia).
    now rewrite !while_loop_exit.
  - destruct (Z.lt_ge_cases (count l) threshold) as [Hc|Hc];
      [|now rewrite !while_loop_exit].
    destruct fuel' as [|fuel']; [unfold passes_left, threshold in *; lia|].
    rewrite !while_loop_step by assumption. unfold bind.
    destruct (pass_cases baudrate l d)
      as [e Hres _|tmp _ Hres _ _ _ _|_ _ Hlt Hres _ _ _ _|_ _ Hres _];
      rewrite Hres; try reflexivity.
    + rewrite (IH fuel'); [reflexivity| |];
        unfold passes_left, threshold in *; cbn [count loop]; lia.
    + rewrite (IH fuel'); [reflexivity| |];
        unfold passes_left, threshold in *; cbn [count loop]; lia.
Qed.

(** The loop never transmits more often than its retry counter allows. *)
Lemma while_loop_transmits (baudrate : Z) (fuel : nat) (l : locals) (d : D) :
  (transmits (events (while_loop hw opts fuel baudrate l d))
   <= Z.to_nat (3 - loop l))%nat.
Proof.
  revert l d. induction fuel as [|fuel IH]; intros l d.
  - simpl. destruct (count l <? threshold); unfold transmits; simpl; lia.
  - destruct (Z.lt_ge_cases (count l) threshold) as [Hc|Hc];
      [|rewrite while_loop_exit by assumption; unfold transmits; simpl; lia].
    rewrite while_loop_step by assumption. unfold bind.
    destruct (pass_cases baudrate l d)
      as [e Hres Ht|tmp _ Hres Ht _ _ _|_ _ Hlt Hres Ht _ _ _|_ _ Hres Ht];
      rewrite Hres; simpl.
    + destruct Ht as [->|[-> [_ Hlt]]]; lia.
    + rewrite transmits_app, Ht.
      specialize (IH (Locals (count l + 1) (loop l) (received_bytes l ++ tmp))
                     (final (pass hw opts baudrate l d))).
      cbn [loop] in IH. lia.
    + rewrite transmits_app, Ht.
      specialize (IH (Locals (count l) (loop l + 1) (received_bytes l))
                     (final (pass hw opts baudrate l d))).
      cbn [loop] in IH. lia.
    + rewrite transmits_app, Ht. unfold transmits. simpl. lia.
Qed.

(** A [return] inside the loop returns [False]. *)
Lemma while_loop_returns (baudrate : Z) (fuel : nat) (l : locals) (d : D)
      (v : option bool) :
  result (while_loop hw opts fuel baudrate l d) = inr (inr v) -> v = Some false.
Proof.
  revert l d. induction fuel as [|fuel IH]; intros l d.
  - simpl. destruct (count l <? threshold); simpl; discriminate.
  - destruct (Z.lt_ge_cases (count l) threshold) as [Hc|Hc];
      [|rewrite while_loop_exit by assumption; simpl; discriminate].
    rewrite while_loop_step by assumption. unfold bind.
    destruct (pass_cases baudrate l d)
      as [e Hres _|tmp _ Hres _ _ _ _|_ _ Hlt Hres _ _ _ _|_ _ Hres _];
      rewrite Hres; simpl; try discriminate.
    + apply IH.
    + apply IH.
    + intros Heq. now inversion Heq.
Qed.

Lemma completed_at_once (fuel : nat) (l : locals) :
  ((passes_left l <= fuel)%nat -> threshold <= count l) ->
  completed_with fuel l l [].
Proof.
  intros H. unfold completed_with, receives, received. simpl.
  rewrite app_nil_r. repeat split; [lia|tauto|assumption].
Qed.

Lemma while_loop_completed (baudrate : Z) (fuel : nat) (l l' : locals) (d : D) :
  result (while_loop hw opts fuel baudrate l d) = inr (inl l') ->
  completed_with fuel l l' (events (while_loop hw opts fuel baudrate l d)).
Proof.
  revert l d. induction fuel as [|fuel IH]; intros l d.
  - simpl. destruct (count l <? threshold) eqn:Hc; simpl; intros Heq;
      inversion Heq; subst; apply completed_at_once.
    + apply Z.ltb_lt in Hc. unfold passes_left, threshold in *. lia.
    + intros _. now apply Z.ltb_ge.
  - destruct (Z.lt_ge_cases (count l) threshold) as [Hc|Hc].
    2:{ rewrite while_loop_exit by assumption. simpl. intros Heq.
        inversion Heq; subst. now apply completed_at_once. }
    rewrite while_loop_step by assumption. unfold bind.
    destruct (pass_cases baudrate l d)
      as [e Hres _|tmp _ Hres _ Hr Hg Hp|_ _ Hlt Hres _ Hr Hg Hp|_ _ Hres _];
      rewrite Hres; simpl; try discriminate.
    + intros Heq. destruct (IH _ _ Heq) as (H1 & H0 & H2 & H3 & H4 & H5).
      cbn [count loop received_bytes] in *. unfold completed_with, received.
      rewrite receives_app, gots_app, printed_app, Hr, Hg, Hp, H3.
      repeat split.
      * lia.
      * simpl. now rewrite H0.
      * rewrite H2. unfold received. simpl. now rewrite app_assoc.
      * intros _. apply H4. lia.
      * intros Hf. apply H5. unfold passes_left, threshold in *.
        cbn [count loop]. lia.
    + intros Heq. destruct (IH _ _ Heq) as (H1 & H0 & H2 & H3 & H4 & H5).
      cbn [count loop received_bytes] in *. unfold completed_with.
      rewrite receives_app, gots_app, printed_app, Hr, Hg, Hp, H3.
      unfold received. rewrite gots_app, Hg.
      repeat split.
      * lia.
      * assumption.
      * assumption.
      * assumption.
      * intros Hf. apply H5. unfold passes_left, threshold in *.
        cbn [count loop]. lia.
Qed.
(** *** [process_baudrate] and the sweep, with the score made explicit *)

Lemma score_and_print_run (baudrate : Z) (buf : list byte) (d : D) :
  score_and_print opts baudrate buf d
  = Out (inr tt) d (result_lines opts baudrate buf (Entropy.score buf)).
Proof.
  unfold score_and_print, result_lines, bind, lift, print_result, log, emit, ret.
  simpl. rewrite entropy_score. simpl.
  destruct (min_entropy opts) as [least|]; [|reflexivity].
  destruct (Rge_dec (Entropy.score buf) least); reflexivity.
Qed.

Lemma process_baudrate_run_eq (baudrate : Z) (d : D) :
  process_baudrate hw opts baudrate d = process_baudrate_run hw opts baudrate d.
Proof.
  unfold process_baudrate, process_baudrate_run, bind, emit, ret.
  cbn [result final events].
  destruct (while_loop hw opts max_passes baudrate (Locals 0 0 []) d)
    as [[e|[l|v]] dw evs]; cbn [result final events app]; try reflexivity.
  - rewrite score_and_print_run. cbn [result final events app].
    now rewrite app_nil_r.
  - now rewrite app_nil_r.
Qed.

Lemma sweep_run_eq (pin : option Z) (rates : list Z) (d : D) :
  sweep hw opts pin rates d = sweep_run hw opts pin rates d.
Proof.
  revert d. induction rates as [|baudrate later IH]; intros d; [reflexivity|].
  simpl. apply bind_ext. intros [|] d1; [|apply IH].
  apply bind_ext. intros _ d2. unfold bind.
  rewrite process_baudrate_run_eq.
  destruct (result (process_baudrate_run hw opts baudrate d2)) as [e|found];
    [reflexivity|].
  destruct (truthy found); [reflexivity|]. now rewrite IH.
Qed.

(** What [process_baudrate] returns is never true: [False] on a timeout,
    [None] after a completed sample. *)
Lemma process_baudrate_falsy (baudrate : Z) (d : D) (v : option bool) :
  result (process_baudrate hw opts baudrate d) = inr v -> truthy v = false.
Proof.
  rewrite process_baudrate_run_eq. unfold process_baudrate_run.
  destruct (result (while_loop hw opts max_passes baudrate (Locals 0 0 []) d))
    as [e|[l|v']] eqn:Hw; simpl; intros Heq; inversion Heq; subst.
  - reflexivity.
  - now rewrite (while_loop_returns _ _ _ _ _ Hw).
Qed.

Lemma result_lines_transmits (baudrate : Z) (buf : list byte) (h : R) :
  transmits (result_lines opts baudrate buf h) = 0%nat.
Proof.
  unfold result_lines. destruct (min_entropy opts); [|reflexivity].
  destruct (Rge_dec h r); reflexivity.
Qed.

Lemma process_baudrate_transmits (baudrate : Z) (d : D) :
  transmits (events (process_baudrate hw opts baudrate d))
  = transmits (events (while_loop hw opts max_passes baudrate (Locals 0 0 []) d)).
Proof.
  rewrite process_baudrate_run_eq. unfold process_baudrate_run.
  destruct (result (while_loop hw opts max_passes baudrate (Locals 0 0 []) d))
    as [e|[l|v']]; simpl; try reflexivity.
  change (ProgressStart :: ?x) with ([ProgressStart] ++ x).
  now rewrite !transmits_app, result_lines_transmits, Nat.add_0_r.
Qed.
(** A candidate whose reconfiguration fails is skipped. *)
Lemma sweep_skip (pin : option Z) (baudrate : Z) (later : list Z) (d d' : D)
      (evs : list event) :
  change_baudrate hw baudrate d = Out (inr false) d' evs ->
  sweep hw opts pin (baudrate :: later) d
  = Out (result (sweep hw opts pin later d'))
        (final (sweep hw opts pin later d'))
        (evs ++ events (sweep hw opts pin later d')).
Proof. intros Hcb. cbn [sweep]. unfold bind. rewrite Hcb. reflexivity. Qed.

Lemma list_mode_run (pin : option Z) (d : D) :
  list_mode hw opts pin d
  = bind (lift (comprehension (fun b => int (strip b))
                  (split "," (baudrate_list opts))))
         (sweep_run hw opts pin) d.
Proof. unfold list_mode. apply bind_ext. intros rates d'. apply sweep_run_eq. Qed.

Lemma incremental_mode_run (pin : option Z) (d : D) :
  incremental_mode hw opts pin d
  = bind (lift (range (baudrate_min opts) (baudrate_max opts) (baudrate_inc opts)))
         (sweep_run hw opts pin) d.
Proof.
  unfold incremental_mode. apply bind_ext. intros rates d'. apply sweep_run_eq.
Qed.
End WithAdapter.

(** **** C1.  The sweep does not halt at the first completed sample: on a
    target that keeps sending, with the rate list "9600,19200", the sample
    at 9600 completes (ten bytes, a result line printed) and
    [process_baudrate] returns [None], so the loop's [break] is not taken:
    19200 is configured and sampled too. *)
Theorem sweep_goes_on_after_completed_sample :
  let hw := Sim.adapter [] false in
  let opts := Sim.options "list" "9600,19200" false in
  let d1 := final (change_baudrate hw 9600 (Sim.talking 22)) in
  let r := list_mode hw opts None (Sim.talking 22) in
  result (while_loop hw opts max_passes 9600 (Locals 0 0 []) d1)
    = inr (inl (Locals 10 0 (repeat x41 10)))
  /\ result (process_baudrate hw opts 9600 d1) = inr None
  /\ result r = inr tt
  /\ configured (events r) = [9600; 19200]
  /\ receives (events r) = 22%nat
  /\ List.length (printed (events r)) = 2%nat.
Proof.
  cbv zeta. rewrite list_mode_run, process_baudrate_run_eq.
  repeat split; lazy; reflexivity.
Qed.

(** **** C2 as stated fails: when [configure] raises at 9600, the error is
    logged and the sweep goes on: 19200 is configured and sampled. *)
Lemma sweep_survives_failed_configure :
  let hw := Sim.adapter [9600] false in
  let opts := Sim.options "list" "9600,19200" false in
  let r := list_mode hw opts None (Sim.talking 11) in
  fst (configure hw 9600 (Sim.talking 11)) = inl (DeviceError "UART configure failed")
  /\ In (Log ERROR (Raised (DeviceError "UART configure failed"))) (events r)
  /\ configured (events r) = [9600; 19200]
  /\ receives (events r) = 11%nat
  /\ List.length (printed (events r)) = 1%nat.
Proof.
  cbv zeta. rewrite list_mode_run.
  repeat split; lazy; try reflexivity.
  right. right. right. left. reflexivity.
Qed.

(** **** C2, amended.  If reconfiguring the port at a candidate rate raises
    an error, the engine logs it and does nothing more for that candidate
    (no reset, no sampling, no scoring); the sweep then goes on with the
    remaining rates. *)
Theorem failed_configure_skips_candidate
    (D : Type) (hw : Adapter D) (opts : Options) (pin : option Z)
    (baudrate : Z) (later : list Z) (d : D) (n : Z) (flushed : list byte) (e : exn) :
  let d1 := snd (serial_in_waiting hw d) in
  let d2 := snd (serial_read hw n d1) in
  let d3 := snd (configure hw baudrate d2) in
  fst (serial_in_waiting hw d) = inr n ->
  fst (serial_read hw n d1) = inr flushed ->
  fst (configure hw baudrate d2) = inl e ->
  is_Exception e = true ->
  let r := sweep hw opts pin (baudrate :: later) d in
  let rest := sweep hw opts pin later d3 in
  result r = result rest
  /\ final r = final rest
  /\ events r
     = [Call SerialInWaiting; Call (SerialRead n); Call (Configure baudrate);
        Log ERROR (Raised e)] ++ events rest.
Proof.
  intros d1 d2 d3 Hn Hf He Hexc r rest. subst r rest d3 d2 d1.
  assert (Hcb : change_baudrate hw baudrate d
                = Out (inr false)
                    (snd (configure hw baudrate
                            (snd (serial_read hw n (snd (serial_in_waiting hw d))))))
                    [Call SerialInWaiting; Call (SerialRead n);
                     Call (Configure baudrate); Log ERROR (Raised e)]).
  { unfold change_baudrate, try_except, bind, invoke, log, emit, ret.
    cbn [result final events]. rewrite Hn. cbn [result final events].
    rewrite Hf. cbn [result final events]. rewrite He.
    cbn [result final events]. rewrite Hexc. reflexivity. }
  rewrite (sweep_skip hw opts pin baudrate later d _ _ Hcb).
  cbn [result final events]. repeat split; reflexivity.
Qed.

(** The amended C2 at work: the failing rate 9600 alone in the list. *)
Lemma failed_configure_skips_candidate_witness :
  let hw := Sim.adapter [9600] false in
  let opts := Sim.options "list" "9600" false in
  let r := sweep hw opts None [9600] (Sim.talking 3) in
  (fst (configure hw 9600 (Sim.talking 3)) = inl (DeviceError "UART configure failed")
   /\ is_Exception (DeviceError "UART configure failed") = true)
  /\ result r = inr tt
  /\ final r = Sim.talking 3
  /\ events r
     = [Call SerialInWaiting; Call (SerialRead 0); Call (Configure 9600);
        Log ERROR (Raised (DeviceError "UART configure failed"))].
Proof.
  split; [split; reflexivity|].
  exact (failed_configure_skips_candidate
           Sim.target (Sim.adapter [9600] false) (Sim.options "list" "9600" false)
           None 9600 [] (Sim.talking 3) 0 [] (DeviceError "UART configure failed")
           eq_refl eq_refl eq_refl eq_refl).
Defined.

(** **** C4 as stated fails: the stall counter is not reset when a byte is
    read.  A pass that reads a byte with [loop = 2] leaves [loop = 2]; and a
    target that sends one byte after each trigger is triggered three times
    in all: the fourth stall ends the collection with three bytes read. *)
Lemma stall_counter_survives_read :
  let hw := Sim.adapter [] false in
  let opts := Sim.options "list" "9600" true in
  let r := process_baudrate hw opts 9600
             (Sim.answering [[x41]; [x42]; [x43]; [x44]]) in
  result (pass hw opts 9600 (Locals 0 2 []) (Sim.Target [x41] [] []))
    = inr (Next (Locals 1 2 [x41]))
  /\ result r = inr (Some false)
  /\ transmits (events r) = 3%nat
  /\ received (events r) = [x41; x42; x43].
Proof.
  cbv zeta. rewrite process_baudrate_run_eq. repeat split; vm_compute; reflexivity.
Qed.

(** **** C4, amended.  Whenever a byte becomes available within the
    per-byte timeout and is read and appended to the sample, the stall-retry
    counter keeps its value (it is not reset): the trigger budget of 3 is
    spent once over the whole candidate. *)
Theorem read_keeps_stall_counter
    (D : Type) (hw : Adapter D) (opts : Options) (baudrate : Z)
    (l l' : locals) (d : D) :
  result (wait_bytes hw d) = inr true ->
  result (pass hw opts baudrate l d) = inr (Next l') ->
  loop l' = loop l
  /\ count l' = count l + 1
  /\ received_bytes l' = received_bytes l ++ received (events (pass hw opts baudrate l d)).
Proof.
  intros Hwait Hnext.
  destruct (pass_cases hw opts baudrate l d)
    as [e Hres _|tmp _ Hres _ _ Hg _|Hw _ _ _ _ _ _ _|Hw _ _ _];
    try congruence.
  rewrite Hres in Hnext. inversion Hnext; subst. cbn [loop count received_bytes].
  unfold received. rewrite Hg. simpl. now rewrite app_nil_r.
Qed.

(** The amended C4 at work, on a buffer holding one byte. *)
Lemma read_keeps_stall_counter_witness :
  let hw := Sim.adapter [] false in
  let opts := Sim.options "list" "9600" true in
  let d := Sim.Target [x41] [] [] in
  (result (wait_bytes hw d) = inr true
   /\ result (pass hw opts 9600 (Locals 0 2 []) d) = inr (Next (Locals 1 2 [x41])))
  /\ loop (Locals 1 2 [x41]) = 2
  /\ count (Locals 1 2 [x41]) = 0 + 1
  /\ received_bytes (Locals 1 2 [x41])
     = [] ++ received (events (pass hw opts 9600 (Locals 0 2 []) d)).
Proof.
  split; [split; reflexivity|].
  exact (read_keeps_stall_counter
           Sim.target (Sim.adapter [] false) (Sim.options "list" "9600" true) 9600
           (Locals 0 2 []) (Locals 1 2 [x41]) (Sim.Target [x41] [] [])
           eq_refl eq_refl).
Defined.

(** **** C5.  While collecting for one candidate rate the collector
    transmits the trigger sequence at most 3 times; and on a target that
    sends its data (ten bytes or more) only after the second trigger, the
    collection completes with two transmit calls. *)
Theorem collector_transmits_at_most_3 :
  (forall (D : Type) (hw : Adapter D) (opts : Options) (baudrate : Z) (d : D),
      (transmits (events (process_baudrate hw opts baudrate d)) <= 3)%nat)
  /\ (forall (b0 b1 b2 b3 b4 b5 b6 b7 b8 b9 : byte) (more : list byte),
        let sample := [b0; b1; b2; b3; b4; b5; b6; b7; b8; b9] in
        let r := process_baudrate (Sim.adapter [] false)
                   (Sim.options "list" "9600" true) 9600
                   (Sim.answering [[]; sample ++ more]) in
        result r = inr None
        /\ transmits (events r) = 2%nat
        /\ received (events r) = sample).
Proof.
  split.
  - intros D hw opts baudrate d. rewrite process_baudrate_transmits.
    pose proof (while_loop_transmits hw opts baudrate max_passes (Locals 0 0 []) d) as H.
    cbn [loop] in H. change (Z.to_nat (3 - 0)) with 3%nat in H. exact H.
  - intros b0 b1 b2 b3 b4 b5 b6 b7 b8 b9 more. cbv zeta.
    rewrite process_baudrate_run_eq. repeat split; lazy; reflexivity.
Qed.

(** **** C6.  After a completed sample, with a minimum-entropy filter the
    result line (rate, entropy, hex-escaped bytes) is printed if and only if
    the entropy is at least the configured value; without a filter it is
    always printed. *)
Theorem result_printed_iff_entropy_reaches_minimum
    (D : Type) (hw : Adapter D) (opts : Options) (baudrate : Z) (d : D)
    (l : locals) :
  result (while_loop hw opts max_passes baudrate (Locals 0 0 []) d) = inr (inl l) ->
  exists h : R,
    Entropy.entropy (received_bytes l) = inr h
    /\ let line := (baudrate, h, bytearray_to_hex_repr (received_bytes l)) in
       let shown := printed (events (process_baudrate hw opts baudrate d)) in
       match min_entropy opts with
       | Some least =>
           ((h >= least)%R -> shown = [line])
           /\ (~ (h >= least)%R -> shown = [])
           /\ (In line shown <-> (h >= least)%R)
       | None => shown = [line]
       end.
Proof.
  intros Hw. exists (Entropy.score (received_bytes l)).
  split; [apply entropy_score|]. cbv zeta.
  rewrite process_baudrate_run_eq. unfold process_baudrate_run. rewrite Hw.
  cbn [events].
  destruct (while_loop_completed hw opts baudrate max_passes _ l d Hw)
    as (_ & _ & _ & Hp & _).
  change (ProgressStart :: ?x) with ([ProgressStart] ++ x).
  rewrite !printed_app, Hp. unfold result_lines.
  destruct (min_entropy opts) as [least|]; [|reflexivity].
  destruct (Rge_dec (Entropy.score (received_bytes l)) least) as [Hge|Hlt].
  - repeat split; try tauto. intros _. now left.
  - repeat split; try tauto. intros [].
Qed.

(** C6 at work: ten bytes ["A"] with a minimum entropy of 3. *)
Lemma result_printed_iff_entropy_reaches_minimum_witness :
  result (while_loop (Sim.adapter [] false) (Sim.filtering 3 "9600") max_passes
            9600 (Locals 0 0 []) (Sim.talking 10))
    = inr (inl (Locals 10 0 (repeat x41 10)))
  /\ exists h : R,
       Entropy.entropy (received_bytes (Locals 10 0 (repeat x41 10))) = inr h
       /\ let line :=
            (9600, h, bytearray_to_hex_repr
                        (received_bytes (Locals 10 0 (repeat x41 10)))) in
          let shown :=
            printed (events (process_baudrate (Sim.adapter [] false)
                               (Sim.filtering 3 "9600") 9600 (Sim.talking 10))) in
          match min_entropy (Sim.filtering 3 "9600") with
          | Some least =>
              ((h >= least)%R -> shown = [line])
              /\ (~ (h >= least)%R -> shown = [])
              /\ (In line shown <-> (h >= least)%R)
          | None => shown = [line]
          end.
Proof.
  split; [reflexivity|].
  exact (result_printed_iff_entropy_reaches_minimum
           Sim.target (Sim.adapter [] false) (Sim.filtering 3 "9600") 9600
           (Sim.talking 10) (Locals 10 0 (repeat x41 10)) eq_refl).
Defined.

(** **** C9.  The sample that is scored need not hold ten bytes: the loop
    counts the [receive] calls ([count += 1]) and not the bytes they return
    ([received_bytes.extend(tmp)]), although the docstring of
    [process_baudrate] requires 10 characters to calculate the entropy.  On
    an adapter whose [receive(1)] returns no byte although [in_waiting] was
    positive, ten reads end the loop with an empty sample, and that empty
    sample is scored and its result line printed. *)
Theorem completed_sample_may_be_short :
  let hw := Sim.adapter [] true in
  let opts := Sim.options "list" "9600" false in
  let w := while_loop hw opts max_passes 9600 (Locals 0 0 []) (Sim.talking 10) in
  let r := process_baudrate hw opts 9600 (Sim.talking 10) in
  result w = inr (inl (Locals 10 0 []))
  /\ receives (events w) = 10%nat
  /\ gots (events w) = repeat [] 10
  /\ result r = inr None
  /\ map (fun line => (fst (fst line), snd line)) (printed (events r))
     = [(9600, EmptyString)].
Proof.
  cbv zeta. rewrite process_baudrate_run_eq. repeat split; lazy; reflexivity.
Qed.

(** What a completed loop does guarantee, on every adapter: exactly
    [threshold] = 10 calls of [receive(1)] were made and the sample passed
    to the scorer is what they returned, in order; it holds 10 bytes when
    each call returned exactly one byte, and only then is the length sure. *)
Theorem completed_sample_is_ten_reads
    (D : Type) (hw : Adapter D) (opts : Options) (baudrate : Z) (d : D)
    (l : locals) :
  result (while_loop hw opts max_passes baudrate (Locals 0 0 []) d) = inr (inl l) ->
  let evs := events (while_loop hw opts max_passes baudrate (Locals 0 0 []) d) in
  count l = threshold
  /\ receives evs = 10%nat
  /\ List.length (gots evs) = 10%nat
  /\ received_bytes l = concat (gots evs)
  /\ (Forall (fun data => List.length data = 1%nat) (gots evs) ->
      List.length (received_bytes l) = 10%nat).
Proof.
  intros Hw evs.
  destruct (while_loop_completed hw opts baudrate max_passes _ l d Hw)
    as (Hc & Hg & Hb & _ & Hle & Hge).
  fold evs in Hc, Hg, Hb. cbn [count received_bytes] in *.
  assert (Hcount : count l = threshold).
  { apply Z.le_antisymm; [apply Hle; unfold threshold; lia|].
    apply Hge. unfold passes_left, threshold, max_passes. cbn [count loop]. lia. }
  assert (Hr : receives evs = 10%nat) by (unfold threshold in *; lia).
  repeat split; try assumption; try congruence.
  intros Hone. rewrite Hb. simpl. unfold received.
  rewrite <- Hr, <- Hg. clear - Hone.
  induction Hone as [|data rest Hd _ IH]; [reflexivity|].
  simpl. rewrite length_app, Hd, IH. reflexivity.
Qed.

(** On a target sending ten bytes, one per poll, the sample has ten bytes. *)
Lemma completed_sample_is_ten_reads_witness :
  result (while_loop (Sim.adapter [] false) (Sim.options "list" "9600" false)
            max_passes 9600 (Locals 0 0 []) (Sim.talking 10))
    = inr (inl (Locals 10 0 (repeat x41 10)))
  /\ let evs :=
       events (while_loop (Sim.adapter [] false) (Sim.options "list" "9600" false)
                 max_passes 9600 (Locals 0 0 []) (Sim.talking 10)) in
     count (Locals 10 0 (repeat x41 10)) = threshold
     /\ receives evs = 10%nat
     /\ List.length (gots evs) = 10%nat
     /\ received_bytes (Locals 10 0 (repeat x41 10)) = concat (gots evs)
     /\ (Forall (fun data => List.length data = 1%nat) (gots evs) ->
         List.length (received_bytes (Locals 10 0 (repeat x41 10))) = 10%nat).
Proof.
  split; [reflexivity|].
  exact (completed_sample_is_ten_reads
           Sim.target (Sim.adapter [] false) (Sim.options "list" "9600" false)
           9600 (Sim.talking 10) (Locals 10 0 (repeat x41 10)) eq_refl).
Defined.

Lemma split_not_nil (sep : ascii) (s : string) : split sep s <> [].
Proof.
  destruct s as [|c rest]; simpl; [discriminate|].
  destruct (split sep rest); [discriminate|].
  destruct (Ascii.eqb c sep); discriminate.
Qed.

(** **** C7.  A malformed rate list is not rejected by [check_options]: in
    list mode it returns [True], whatever the list.  With the list
    "9600,abc" the run therefore opens the adapter and announces the
    detection; the bad entry only surfaces as the [ValueError] that
    [list_mode] raises while building its list, which [run] logs.  No rate is
    configured or sampled. *)
Theorem malformed_list_passes_check_options :
  (forall (the_list : string) (with_trigger : bool) (d : Sim.target),
      check_options (Sim.options "list" the_list with_trigger) d
      = Out (inr true) d [])
  /\ let hw := Sim.adapter [] false in
     let opts := Sim.options "list" "9600,abc" false in
     let r := run hw opts (Sim.talking 11) in
     comprehension (fun b => int (strip b)) (split "," (baudrate_list opts))
       = inl (ValueError "invalid literal for int() with base 10")
     /\ events r
        = [Call Connect; Call (UartOpen 0);
           Log HEADER (Text "Starting baudrate detection, turn on your target device now");
           Log HEADER (Text "Press Ctrl+C to cancel");
           Log ERROR (Raised (ValueError "invalid literal for int() with base 10"))]
     /\ configured (events r) = []
     /\ receives (events r) = 0%nat.
Proof.
  split.
  - intros the_list with_trigger d. unfold check_options. simpl.
    pose proof (split_not_nil "," the_list) as Hne.
    destruct (split "," the_list); [now elim Hne|reflexivity].
  - cbv zeta. repeat split; vm_compute; reflexivity.
Qed.

Lemma range_length_spec (lo hi step : Z) (i : nat) :
  0 < step ->
  ((i < Z.to_nat (range_length lo hi step))%nat <-> lo + Z.of_nat i * step < hi).
Proof.
  intros Hstep. unfold range_length.
  destruct (0 <? step) eqn:Hs; [|apply Z.ltb_ge in Hs; lia].
  destruct (lo <? hi) eqn:Hlh.
  - apply Z.ltb_lt in Hlh.
    pose proof (Z.div_mod (hi - lo - 1) step ltac:(lia)) as Hdm.
    pose proof (Z.mod_pos_bound (hi - lo - 1) step Hstep) as Hm.
    assert (Hq : 0 <= (hi - lo - 1) / step) by (apply Z.div_pos; lia).
    split; intros H.
    + assert (Z.of_nat i <= (hi - lo - 1) / step) by lia. nia.
    + assert (Z.of_nat i <= (hi - lo - 1) / step) by nia. lia.
  - apply Z.ltb_ge in Hlh. simpl. split; [lia|]. intros H. nia.
Qed.

(** **** C8.  In incremental mode with a positive step the candidate rates
    swept are [min], [min + step], [min + 2 * step], ... in increasing order,
    exactly those strictly below [max]; for min = 300, max = 1200,
    step = 300 they are 300, 600 and 900, each of which is configured. *)
Theorem incremental_rates
    (D : Type) (hw : Adapter D) (opts : Options) (pin : option Z) :
  0 < baudrate_inc opts ->
  exists n : nat,
    let rate := fun i : nat => baudrate_min opts + Z.of_nat i * baudrate_inc opts in
    range (baudrate_min opts) (baudrate_max opts) (baudrate_inc opts)
      = inr (map rate (seq 0 n))
    /\ (forall d, incremental_mode hw opts pin d
                  = sweep hw opts pin (map rate (seq 0 n)) d)
    /\ (forall i : nat, (i < n)%nat <-> rate i < baudrate_max opts)
    /\ (forall i j : nat, (i < j)%nat -> rate i < rate j)
    /\ range 300 1200 300 = inr [300; 600; 900]
    /\ configured (events (incremental_mode (Sim.adapter [] false)
                             (Sim.incremental 300 1200 300) None (Sim.talking 33)))
       = [300; 600; 900].
Proof.
  intros Hstep.
  exists (Z.to_nat (range_length (baudrate_min opts) (baudrate_max opts)
                      (baudrate_inc opts))).
  cbv zeta.
  assert (Hr : range (baudrate_min opts) (baudrate_max opts) (baudrate_inc opts)
               = inr (map (fun i : nat => baudrate_min opts + Z.of_nat i * baudrate_inc opts)
                        (seq 0 (Z.to_nat (range_length (baudrate_min opts)
                                            (baudrate_max opts) (baudrate_inc opts)))))).
  { unfold range. destruct (baudrate_inc opts =? 0) eqn:H0; [|reflexivity].
    apply Z.eqb_eq in H0. lia. }
  split; [exact Hr|]. split; [|split; [|split; [|split]]].
  - intros d. unfold incremental_mode, bind, lift. rewrite Hr.
    cbn [result final events app].
    now destruct (sweep hw opts pin _ d).
  - intros i. now apply range_length_spec.
  - intros i j Hij. nia.
  - reflexivity.
  - rewrite incremental_mode_run. lazy. reflexivity.
Qed.

(** C8 at work, on the default options of the module. *)
Lemma incremental_rates_witness :
  0 < baudrate_inc (Sim.incremental 300 1200 300)
  /\ exists n : nat,
       let rate := fun i : nat =>
         baudrate_min (Sim.incremental 300 1200 300)
         + Z.of_nat i * baudrate_inc (Sim.incremental 300 1200 300) in
       range (baudrate_min (Sim.incremental 300 1200 300))
             (baudrate_max (Sim.incremental 300 1200 300))
             (baudrate_inc (Sim.incremental 300 1200 300))
         = inr (map rate (seq 0 n))
       /\ (forall d, incremental_mode (Sim.adapter [] false)
                       (Sim.incremental 300 1200 300) None d
                     = sweep (Sim.adapter [] false) (Sim.incremental 300 1200 300)
                         None (map rate (seq 0 n)) d)
       /\ (forall i : nat, (i < n)%nat
                           <-> rate i < baudrate_max (Sim.incremental 300 1200 300))
       /\ (forall i j : nat, (i < j)%nat -> rate i < rate j)
       /\ range 300 1200 300 = inr [300; 600; 900]
       /\ configured (events (incremental_mode (Sim.adapter [] false)
                                (Sim.incremental 300 1200 300) None (Sim.talking 33)))
          = [300; 600; 900].
Proof.
  split; [reflexivity|].
  exact (incremental_rates Sim.target (Sim.adapter [] false)
           (Sim.incremental 300 1200 300) None eq_refl).
Defined.
End AnalyzerFacts.

(** ** Further properties of the module *)

Module HexFacts.
Import Py BaudrateAnalyzer.

Lemma hex_digit_code (n : nat) :
  (n < 16)%nat ->
  nat_of_ascii (hex_digit n) = (if (n <? 10)%nat then 48 + n else 87 + n)%nat.
Proof.
  intros Hn. unfold hex_digit.
  destruct (n <? 10)%nat; apply nat_ascii_embedding; lia.
Qed.

Lemma hex_digit_injective (n m : nat) :
  (n < 16)%nat -> (m < 16)%nat -> hex_digit n = hex_digit m -> n = m.
Proof.
  intros Hn Hm Heq. apply (f_equal nat_of_ascii) in Heq.
  rewrite !hex_digit_code in Heq by assumption.
  destruct (Nat.ltb_spec n 10); destruct (Nat.ltb_spec m 10); lia.
Qed.

Lemma hex_pair_injective (n m : nat) :
  (n <= 255)%nat -> (m <= 255)%nat ->
  hex_digit (n / 16) = hex_digit (m / 16) ->
  hex_digit (n mod 16) = hex_digit (m mod 16) ->
  n = m.
Proof.
  intros Hn Hm Hhi Hlo.
  assert (H16 : (16 <> 0)%nat) by lia.
  pose proof (Nat.div_mod n 16 H16) as Hd.
  pose proof (Nat.div_mod m 16 H16) as Hd'.
  pose proof (Nat.mod_upper_bound n 16 H16).
  pose proof (Nat.mod_upper_bound m 16 H16).
  assert ((n / 16 < 16)%nat) by (apply Nat.Div0.div_lt_upper_bound; lia).
  assert ((m / 16 < 16)%nat) by (apply Nat.Div0.div_lt_upper_bound; lia).
  apply hex_digit_injective in Hhi; [|assumption..].
  apply hex_digit_injective in Hlo; [|assumption..].
  rewrite Hd, Hhi, Hlo. symmetry. exact Hd'.
Qed.

Lemma hex_of_byte_injective (b b' : byte) : hex_of_byte b = hex_of_byte b' -> b = b'.
Proof.
  unfold hex_of_byte. intros Heq. injection Heq as Hhi Hlo.
  assert (Hn : Byte.to_nat b = Byte.to_nat b').
  { apply hex_pair_injective; try apply Byte.to_nat_bounded; assumption. }
  pose proof (Byte.of_to_nat b) as Ho. rewrite Hn, Byte.of_to_nat in Ho. congruence.
Qed.

Lemma hex_repr_app (a b : list byte) :
  bytearray_to_hex_repr (a ++ b)
  = (bytearray_to_hex_repr a ++ bytearray_to_hex_repr b)%string.
Proof.
  induction a as [|x a IH]; [reflexivity|].
  simpl. now rewrite IH.
Qed.

(** **** X1.  The hex rendering of a buffer is faithful: it takes four
    characters per byte, the rendering of a concatenation is the
    concatenation of the renderings, and two buffers with the same rendering
    are equal. *)
Theorem hex_repr_faithful :
  (forall a : list byte,
      String.length (bytearray_to_hex_repr a) = (4 * List.length a)%nat)
  /\ (forall a b : list byte,
        bytearray_to_hex_repr (a ++ b)
        = (bytearray_to_hex_repr a ++ bytearray_to_hex_repr b)%string)
  /\ (forall a b : list byte,
        bytearray_to_hex_repr a = bytearray_to_hex_repr b -> a = b).
Proof.
  split; [|split].
  - induction a as [|x a IH]; [reflexivity|].
    cbn [bytearray_to_hex_repr List.length]. unfold hex_of_byte.
    cbn [append String.length]. rewrite IH. lia.
  - apply hex_repr_app.
  - induction a as [|x a IH]; intros [|y b] Heq; try reflexivity;
      try (cbn in Heq; discriminate).
    cbn [bytearray_to_hex_repr] in Heq. unfold hex_of_byte in Heq.
    cbn [append] in Heq. injection Heq as Hhi Hlo Hrest.
    f_equal; [|now apply IH].
    apply hex_of_byte_injective. unfold hex_of_byte.
    f_equal; [exact Hhi|f_equal; exact Hlo].
Qed.
End HexFacts.

Module SweepFacts.
Import Py BaudrateAnalyzer Shapes.
Local Open Scope Z_scope.
Local Arguments Z.add : simpl never.
Local Arguments Z.sub : simpl never.
Local Arguments Z.ltb : simpl never.
Local Arguments Z.leb : simpl never.
Local Arguments Z.to_nat : simpl never.
Local Arguments Z.of_nat : simpl never.

Lemma mem_two (s a b : string) :
  mem s [a; b] = true <-> s = a \/ s = b.
Proof.
  simpl. rewrite orb_false_r, orb_true_iff, !String.eqb_eq. tauto.
Qed.

Lemma split_never_nil (sep : ascii) (s : string) : split sep s <> [].
Proof.
  destruct s as [|c rest]; simpl; [discriminate|].
  destruct (split sep rest); [discriminate|].
  destruct (Ascii.eqb c sep); discriminate.
Qed.

(** **** X2.  [check_options] never raises and leaves the adapter alone.  It
    accepts the options exactly when the reset pin, if set, comes with a
    polarity "low" or "high" (in any case) and lies in 0..14, and the mode
    is "incremental" or "list" (in any case); the rate list and the
    incremental bounds play no part.  It logs nothing when it accepts and
    one error when it rejects. *)
Theorem check_options_accepts_iff (D : Type) (opts : Options) (d : D) :
  let r := check_options opts d in
  final r = d
  /\ (result r = inr true \/ result r = inr false)
  /\ (result r = inr true <->
      (forall pin, reset_pin opts = Some pin ->
         (upper (reset_pol opts) = "LOW"%string \/ upper (reset_pol opts) = "HIGH"%string)
         /\ 0 <= pin < 15)
      /\ (upper (mode opts) = "INCREMENTAL"%string \/ upper (mode opts) = "LIST"%string))
  /\ (result r = inr true -> events r = [])
  /\ (result r = inr false -> exists msg, events r = [Log ERROR (Text msg)]).
Proof.
  cbv zeta. unfold check_options, bind, log, emit, ret.
  pose proof (mem_two (upper (reset_pol opts)) "LOW" "HIGH") as Hpol.
  pose proof (mem_two (upper (mode opts)) "INCREMENTAL" "LIST") as Hmode.
  pose proof (split_never_nil "," (baudrate_list opts)) as Hsplit.
  destruct (reset_pin opts) as [pin|].
  - destruct (mem (upper (reset_pol opts)) ["LOW"%string; "HIGH"%string]) eqn:Hp;
      cbn [negb result final events app].
    2:{ repeat split; try (now right); try discriminate.
        - intros [Hall _]. destruct (Hall pin eq_refl) as [Hlh _].
          apply Hpol in Hlh. discriminate.
        - intros _. eexists. reflexivity. }
    destruct ((0 <=? pin) && (pin <? 15)) eqn:Hr; cbn [negb result final events app].
    2:{ repeat split; try (now right); try discriminate.
        - intros [Hall _]. destruct (Hall pin eq_refl) as [_ Hrange].
          apply andb_false_iff in Hr. destruct Hr as [Hr|Hr];
            [apply Z.leb_gt in Hr|apply Z.ltb_ge in Hr]; lia.
        - intros _. eexists. reflexivity. }
    apply andb_true_iff in Hr. destruct Hr as [Hlo Hhi].
    apply Z.leb_le in Hlo. apply Z.ltb_lt in Hhi.
    destruct (mem (upper (mode opts)) ["INCREMENTAL"%string; "LIST"%string]) eqn:Hm;
      cbn [negb result final events app].
    2:{ repeat split; try (now right); try discriminate.
        - intros [_ Hmd]. apply Hmode in Hmd. discriminate.
        - intros _. eexists. reflexivity. }
    assert (Hgood : (forall pin0 : Z, Some pin = Some pin0 ->
                       (upper (reset_pol opts) = "LOW"%string
                        \/ upper (reset_pol opts) = "HIGH"%string) /\ 0 <= pin0 < 15)
                    /\ (upper (mode opts) = "INCREMENTAL"%string
                        \/ upper (mode opts) = "LIST"%string)).
    { split; [|now apply Hmode]. intros pin0 Heq. inversion Heq; subst.
      split; [now apply Hpol|lia]. }
    destruct (String.eqb (upper (mode opts)) "LIST"); cbn [result final events].
    + destruct (split "," (baudrate_list opts)); [now elim Hsplit|].
      cbn [map result final events].
      split; [reflexivity|]. split; [now left|].
      split; [split; [intros _; exact Hgood|reflexivity]|].
      split; [reflexivity|discriminate].
    + split; [reflexivity|]. split; [now left|].
      split; [split; [intros _; exact Hgood|reflexivity]|].
      split; [reflexivity|discriminate].
  - destruct (mem (upper (mode opts)) ["INCREMENTAL"%string; "LIST"%string]) eqn:Hm;
      cbn [negb result final events app].
    2:{ repeat split; try (now right); try discriminate.
        - intros [_ Hmd]. apply Hmode in Hmd. discriminate.
        - intros _. eexists. reflexivity. }
    assert (Hgood : (forall pin0 : Z, None = Some pin0 ->
                       (upper (reset_pol opts) = "LOW"%string
                        \/ upper (reset_pol opts) = "HIGH"%string) /\ 0 <= pin0 < 15)
                    /\ (upper (mode opts) = "INCREMENTAL"%string
                        \/ upper (mode opts) = "LIST"%string)).
    { split; [|now apply Hmode]. intros pin0 Heq. discriminate. }
    destruct (String.eqb (upper (mode opts)) "LIST"); cbn [result final events].
    + destruct (split "," (baudrate_list opts)); [now elim Hsplit|].
      cbn [map result final events].
      split; [reflexivity|]. split; [now left|].
      split; [split; [intros _; exact Hgood|reflexivity]|].
      split; [reflexivity|discriminate].
    + split; [reflexivity|]. split; [now left|].
      split; [split; [intros _; exact Hgood|reflexivity]|].
      split; [reflexivity|discriminate].
Qed.

(** **** X3.  The busy-wait only reads [in_waiting]: it makes at most
    [polls] such calls and no other, every one of them when it gives up,
    at least one when it reports data. *)
Theorem wait_bytes_only_polls (D : Type) (hw : Adapter D) (d : D) :
  let r := wait_bytes hw d in
  exists k : nat,
    events r = repeat (Call InWaiting) k
    /\ (k <= polls hw d)%nat
    /\ (result r = inr false -> k = polls hw d)
    /\ (result r = inr true -> (0 < k)%nat).
Proof.
  cbv zeta. unfold wait_bytes. generalize (polls hw d) as n. intros n. revert d.
  induction n as [|n IH]; intros d.
  - exists 0%nat. simpl. repeat split; try lia. discriminate.
  - cbn [poll]. unfold bind, uart_in_waiting, invoke. cbn [result final events].
    destruct (in_waiting hw d) as [[e|w] d1]; cbn [fst snd].
    + exists 1%nat. simpl. repeat split; try lia; discriminate.
    + destruct (0 <? w).
      * exists 1%nat. simpl. repeat split; try lia. discriminate.
      * destruct (IH d1) as (k & Hev & Hk & Hf & Ht).
        exists (S k). cbn [result final events app repeat]. rewrite Hev.
        repeat split; try lia. intros H. now rewrite (Hf H).
Qed.

(** *** Running adapter calls one at a time *)

Section Stepping.
Context {D : Type} (hw : Adapter D).

Lemma bind_invoke {A B : Type} (c : call) (op : D -> (exn + A) * D)
      (k : A -> M D B) (d : D) :
  bind (invoke c op) k d
  = match fst (op d) with
    | inl e => Out (inl e) (snd (op d)) [Call c]
    | inr a =>
        Out (result (k a (snd (op d)))) (final (k a (snd (op d))))
            (Call c :: events (k a (snd (op d))))
    end.
Proof. unfold bind, invoke. cbn [result final events]. now destruct (fst (op d)). Qed.

Lemma uart_receive_run (size : Z) (d : D) :
  uart_receive hw size d
  = match fst (receive hw size d) with
    | inl e => Out (inl e) (snd (receive hw size d)) [Call (Receive size)]
    | inr data =>
        Out (inr data) (snd (receive hw size d)) [Call (Receive size); Got data]
    end.
Proof.
  unfold uart_receive. rewrite bind_invoke.
  now destruct (fst (receive hw size d)).
Qed.

Lemma bind_uart_receive {B : Type} (size : Z) (k : list byte -> M D B) (d : D) :
  bind (uart_receive hw size) k d
  = match fst (receive hw size d) with
    | inl e => Out (inl e) (snd (receive hw size d)) [Call (Receive size)]
    | inr data =>
        Out (result (k data (snd (receive hw size d))))
            (final (k data (snd (receive hw size d))))
            (Call (Receive size) :: Got data :: events (k data (snd (receive hw size d))))
    end.
Proof.
  unfold bind at 1. rewrite uart_receive_run.
  now destruct (fst (receive hw size d)).
Qed.

Lemma bind_run {A B : Type} (m : M D A) (k : A -> M D B) (d : D) :
  bind m k d
  = match result (m d) with
    | inl e => Out (inl e) (final (m d)) (events (m d))
    | inr a =>
        Out (result (k a (final (m d)))) (final (k a (final (m d))))
            (events (m d) ++ events (k a (final (m d))))
    end.
Proof. reflexivity. Qed.

Lemma bind_emit {B : Type} (e : event) (k : unit -> M D B) (d : D) :
  bind (emit e) k d
  = Out (result (k tt d)) (final (k tt d)) (e :: events (k tt d)).
Proof. reflexivity. Qed.
End Stepping.

(** The ways [change_baudrate] can end. *)
Lemma change_baudrate_cases
    (D : Type) (hw : Adapter D) (baudrate : Z) (d : D) :
  let r := change_baudrate hw baudrate d in
  (forall e, result r = inl e -> is_Exception e = false)
  /\ (result r = inr true ->
      exists n pending data,
        events r = [Call SerialInWaiting; Call (SerialRead n);
                    Call (Configure baudrate); Call InWaiting;
                    Call (Receive pending); Got data])
  /\ (result r = inr false ->
      exists calls e,
        events r = calls ++ [Log ERROR (Raised e)]
        /\ is_Exception e = true
        /\ forallb is_call calls = true
        /\ (List.length calls <= 5)%nat)
  /\ (configured (events r) = []
      \/ exists n rest,
           events r = Call SerialInWaiting :: Call (SerialRead n)
                      :: Call (Configure baudrate) :: rest
           /\ configured rest = []).
Proof.
  cbv zeta. unfold change_baudrate, try_except, uart_in_waiting, log.
  rewrite bind_invoke.
  destruct (serial_in_waiting hw d) as [[e|n] d1]; cbn [fst snd result final events].
  { destruct (is_Exception e) eqn:He; cbn [result final events app].
    - split; [discriminate|]. split; [discriminate|]. split; [|now left].
      intros _. exists [Call SerialInWaiting], e. repeat split; simpl; auto.
    - split; [intros e' H; now inversion H; subst|].
      split; [discriminate|]. split; [discriminate|now left]. }
  rewrite bind_invoke.
  destruct (serial_read hw n d1) as [[e|flushed] d2]; cbn [fst snd result final events].
  { destruct (is_Exception e) eqn:He; cbn [result final events app].
    - split; [discriminate|]. split; [discriminate|]. split; [|now left].
      intros _. exists [Call SerialInWaiting; Call (SerialRead n)], e.
      repeat split; simpl; auto.
    - split; [intros e' H; now inversion H; subst|].
      split; [discriminate|]. split; [discriminate|now left]. }
  rewrite bind_invoke.
  destruct (configure hw baudrate d2) as [[e|[]] d3]; cbn [fst snd result final events].
  { destruct (is_Exception e) eqn:He; cbn [result final events app].
    - split; [discriminate|]. split; [discriminate|]. split.
      + intros _. exists [Call SerialInWaiting; Call (SerialRead n);
                          Call (Configure baudrate)], e.
        repeat split; simpl; auto.
      + right. exists n. eexists. split; reflexivity.
    - split; [intros e' H; now inversion H; subst|].
      split; [discriminate|]. split; [discriminate|].
      right. exists n. eexists. split; reflexivity. }
  rewrite bind_invoke.
  destruct (in_waiting hw d3) as [[e|pending] d4]; cbn [fst snd result final events].
  { destruct (is_Exception e) eqn:He; cbn [result final events app].
    - split; [discriminate|]. split; [discriminate|]. split.
      + intros _. exists [Call SerialInWaiting; Call (SerialRead n);
                          Call (Configure baudrate); Call InWaiting], e.
        repeat split; simpl; auto.
      + right. exists n. eexists. split; reflexivity.
    - split; [intros e' H; now inversion H; subst|].
      split; [discriminate|]. split; [discriminate|].
      right. exists n. eexists. split; reflexivity. }
  rewrite bind_uart_receive.
  destruct (receive hw pending d4) as [[e|data] d5]; cbn [fst snd result final events ret].
  { destruct (is_Exception e) eqn:He; cbn [result final events app].
    - split; [discriminate|]. split; [discriminate|]. split.
      + intros _. exists [Call SerialInWaiting; Call (SerialRead n);
                          Call (Configure baudrate); Call InWaiting;
                          Call (Receive pending)], e.
        repeat split; simpl; auto.
      + right. exists n. eexists. split; reflexivity.
    - split; [intros e' H; now inversion H; subst|].
      split; [discriminate|]. split; [discriminate|].
      right. exists n. eexists. split; reflexivity. }
  split; [discriminate|]. split.
  - intros _. exists n, pending, data. reflexivity.
  - split; [discriminate|]. right. exists n. eexists. split; reflexivity.
Qed.

(** **** X4.  [change_baudrate] keeps every [Exception] to itself, and its
    run is fixed by what the adapter answers: the calls transport
    in_waiting, transport read, configure, in_waiting, receive are made in
    this order, each on the state the one before left, and the first one
    that raises ends the run, no later call being made; if what it raised
    is an [Exception] that very exception is logged and [False] returned,
    otherwise it goes through unlogged.  [True] is returned after the five
    calls and nothing else.  In particular [configure] is never called
    before the transport buffer has been read out. *)
Theorem change_baudrate_contains_errors
    (D : Type) (hw : Adapter D) (baudrate : Z) (d : D) :
  let r := change_baudrate hw baudrate d in
  r = (let (flush, d1) := serial_in_waiting hw d in
       match flush with
       | inl e => caught e d1 [Call SerialInWaiting]
       | inr n =>
           let (flushed, d2) := serial_read hw n d1 in
           match flushed with
           | inl e => caught e d2 [Call SerialInWaiting; Call (SerialRead n)]
           | inr _ =>
               let (set, d3) := configure hw baudrate d2 in
               match set with
               | inl e =>
                   caught e d3 [Call SerialInWaiting; Call (SerialRead n);
                                Call (Configure baudrate)]
               | inr _ =>
                   let (waiting, d4) := in_waiting hw d3 in
                   match waiting with
                   | inl e =>
                       caught e d4 [Call SerialInWaiting; Call (SerialRead n);
                                    Call (Configure baudrate); Call InWaiting]
                   | inr pending =>
                       let (got, d5) := receive hw pending d4 in
                       match got with
                       | inl e =>
                           caught e d5 [Call SerialInWaiting; Call (SerialRead n);
                                        Call (Configure baudrate); Call InWaiting;
                                        Call (Receive pending)]
                       | inr data =>
                           Out (inr true) d5
                             [Call SerialInWaiting; Call (SerialRead n);
                              Call (Configure baudrate); Call InWaiting;
                              Call (Receive pending); Got data]
                       end
                   end
               end
           end
       end)
  /\ (forall e, result r = inl e -> is_Exception e = false)
  /\ (result r = inr true ->
      exists n pending data,
        events r = [Call SerialInWaiting; Call (SerialRead n);
                    Call (Configure baudrate); Call InWaiting;
                    Call (Receive pending); Got data])
  /\ (result r = inr false ->
      exists calls e,
        events r = calls ++ [Log ERROR (Raised e)]
        /\ is_Exception e = true
        /\ forallb is_call calls = true
        /\ (List.length calls <= 5)%nat)
  /\ (configured (events r) = []
      \/ exists n rest,
           events r = Call SerialInWaiting :: Call (SerialRead n)
                      :: Call (Configure baudrate) :: rest
           /\ configured rest = []).
Proof.
  cbv zeta. split; [|exact (change_baudrate_cases D hw baudrate d)].
  unfold change_baudrate, try_except, uart_in_waiting, log, caught.
  rewrite bind_invoke.
  destruct (serial_in_waiting hw d) as [[e|n] d1]; cbn [fst snd result final events].
  { destruct (is_Exception e); reflexivity. }
  rewrite bind_invoke.
  destruct (serial_read hw n d1) as [[e|flushed] d2]; cbn [fst snd result final events].
  { destruct (is_Exception e); reflexivity. }
  rewrite bind_invoke.
  destruct (configure hw baudrate d2) as [[e|[]] d3]; cbn [fst snd result final events].
  { destruct (is_Exception e); reflexivity. }
  rewrite bind_invoke.
  destruct (in_waiting hw d3) as [[e|pending] d4]; cbn [fst snd result final events].
  { destruct (is_Exception e); reflexivity. }
  rewrite bind_uart_receive.
  destruct (receive hw pending d4) as [[e|data] d5];
    cbn [fst snd result final events ret].
  { destruct (is_Exception e); reflexivity. }
  reflexivity.
Qed.

(** *** The collector, pass by pass *)

Section Collector.
Context {D : Type} (hw : Adapter D) (opts : Options).

(** What a pass of the loop returns and logs, case by case. *)
Lemma pass_events (baudrate : Z) (l : locals) (d : D) :
  let w := wait_bytes hw d in
  let r := pass hw opts baudrate l d in
  match result w with
  | inl e => r = Out (inl e) (final w) (events w)
  | inr true =>
      match fst (receive hw 1 (final w)) with
      | inl e =>
          r = Out (inl e) (snd (receive hw 1 (final w)))
                (events w ++ [Call (Receive 1)])
      | inr tmp =>
          r = Out (inr (Next (Locals (count l + 1) (loop l) (received_bytes l ++ tmp))))
                (snd (receive hw 1 (final w)))
                (events w ++ [Call (Receive 1); Got tmp; ProgressStatus tmp])
      end
  | inr false =>
      if trigger opts && (loop l <? 3) then
        match fst (transmit hw (trigger_char opts) (final w)) with
        | inl e =>
            r = Out (inl e) (snd (transmit hw (trigger_char opts) (final w)))
                  (events w ++ [Log INFO (Text "Triggering the device");
                                Call (Transmit (trigger_char opts))])
        | inr _ =>
            let d2 := snd (transmit hw (trigger_char opts) (final w)) in
            r = Out (match fst (sleep hw (2 # 10) d2) with
                     | inl e => inl e
                     | inr _ =>
                         inr (Next (Locals (count l) (loop l + 1) (received_bytes l)))
                     end)
                  (snd (sleep hw (2 # 10) d2))
                  (events w ++ [Log INFO (Text "Triggering the device");
                                Call (Transmit (trigger_char opts));
                                Call (Sleep (2 # 10))])
        end
      else
        r = Out (inr (Return (Some false))) (final w)
              (events w ++ [ProgressStop; Log WARNING (NoData baudrate)])
  end.
Proof.
  cbv zeta. unfold pass. rewrite bind_run.
  destruct (wait_bytes hw d) as [[e|[|]] dw evw]; cbn [result final events].
  - reflexivity.
  - rewrite bind_uart_receive.
    destruct (receive hw 1 dw) as [[e|tmp] d2]; cbn [fst snd]; reflexivity.
  - destruct (trigger opts && (loop l <? 3)).
    + rewrite bind_run. unfold trigger_device, log. rewrite bind_emit, bind_invoke.
      unfold time_sleep, invoke.
      change (Qle_bool 0 (2 # 10)) with true. cbv iota.
      destruct (transmit hw (trigger_char opts) dw) as [[e|[]] d2];
        cbn [fst snd result final events app ret]; [reflexivity|].
      destruct (sleep hw (2 # 10) d2) as [[e|[]] d3];
        cbn [fst snd result final events app ret]; reflexivity.
    + reflexivity.
Qed.

Lemma polls_Forall (P : event -> Prop) (d : D) :
  P (Call InWaiting) -> Forall P (events (wait_bytes hw d)).
Proof.
  intros HP. eapply Forall_impl; [|apply AnalyzerFacts.wait_bytes_events].
  intros e ->. exact HP.
Qed.

(** A property of all the events of each pass holds of all the events of
    the loop. *)
Lemma while_loop_Forall (P : event -> Prop) (baudrate : Z) :
  (forall l d, Forall P (events (pass hw opts baudrate l d))) ->
  forall fuel l d, Forall P (events (while_loop hw opts fuel baudrate l d)).
Proof.
  intros Hpass. induction fuel as [|fuel IH]; intros l d.
  - simpl. destruct (count l <? threshold); constructor.
  - destruct (Z.lt_ge_cases (count l) threshold) as [Hc|Hc].
    2:{ rewrite AnalyzerFacts.while_loop_exit by assumption. constructor. }
    rewrite AnalyzerFacts.while_loop_step by assumption. unfold bind.
    specialize (Hpass l d).
    destruct (pass hw opts baudrate l d) as [[e|[l'|v]] d1 evs];
      cbn [result final events] in *; try assumption.
    + apply Forall_app. split; [assumption|apply IH].
    + now rewrite app_nil_r.
Qed.

Lemma pass_collector_events (baudrate : Z) (l : locals) (d : D) :
  Forall (fun e => collector_event opts baudrate e = true)
         (events (pass hw opts baudrate l d)).
Proof.
  pose proof (pass_events baudrate l d) as H. cbv zeta in H.
  pose proof (polls_Forall (fun e => collector_event opts baudrate e = true) d eq_refl)
    as Hw.
  destruct (result (wait_bytes hw d)) as [e|[|]].
  - now rewrite H.
  - destruct (fst (receive hw 1 (final (wait_bytes hw d)))); rewrite H;
      cbn [events]; apply Forall_app; split; try assumption;
      repeat constructor.
  - destruct (trigger opts && (loop l <? 3)) eqn:Htrig.
    + apply andb_true_iff in Htrig. destruct Htrig as [Htr _].
      assert (Htx : collector_event opts baudrate (Call (Transmit (trigger_char opts)))
                    = true).
      { simpl. rewrite Htr. simpl.
        destruct (list_eq_dec byte_eq_dec (trigger_char opts) (trigger_char opts));
          [reflexivity|congruence]. }
      destruct (fst (transmit hw (trigger_char opts) (final (wait_bytes hw d))));
        rewrite H; cbn [events]; apply Forall_app; split; try assumption;
        repeat constructor; try assumption; simpl; assumption.
    + rewrite H. cbn [events]. apply Forall_app. split; [assumption|].
      repeat constructor. simpl. apply Z.eqb_refl.
Qed.

Lemma collector_event_quiet (baudrate : Z) (evs : list event) :
  Forall (fun e => collector_event opts baudrate e = true) evs ->
  configured evs = [] /\ statuses evs = []
  /\ (trigger opts = false -> transmits evs = 0%nat).
Proof.
  induction 1 as [|e evs He _ IH]; [repeat split|].
  destruct IH as (Hc & Hs & Ht).
  unfold configured, statuses, transmits in *. 
  destruct e as [[]| | | | |]; cbn in *; try discriminate;
    (split; [assumption|split; [assumption|]]); try assumption.
  intros Hoff. rewrite Hoff in He. discriminate.
Qed.

Lemma process_baudrate_collector_events (baudrate : Z) (d : D) :
  Forall (fun e => collector_event opts baudrate e = true)
         (events (process_baudrate hw opts baudrate d)).
Proof.
  rewrite AnalyzerFacts.process_baudrate_run_eq. unfold process_baudrate_run.
  pose proof (while_loop_Forall _ baudrate (pass_collector_events baudrate)
                max_passes (Locals 0 0 []) d) as Hw.
  destruct (result (while_loop hw opts max_passes baudrate (Locals 0 0 []) d))
    as [e|[l|v]]; cbn [events]; constructor; try reflexivity; try assumption.
  apply Forall_app. split; [assumption|].
  unfold result_lines.
  destruct (min_entropy opts) as [least|];
    [destruct (Rge_dec _ least)|]; repeat constructor; simpl; apply Z.eqb_refl.
Qed.

Lemma collector_stays_quiet_in (baudrate : Z) (d : D) :
  configured (events (process_baudrate hw opts baudrate d)) = [].
Proof.
  exact (proj1 (collector_event_quiet baudrate _
                  (process_baudrate_collector_events baudrate d))).
Qed.

(** **** X5.  While collecting for a candidate rate, [process_baudrate]
    only polls [in_waiting], reads one byte at a time, sends the configured
    trigger bytes and sleeps after them (both only when the trigger option
    is on), and logs progress, the no-data warning or the result line for
    that rate.  In particular it never reconfigures the port, never drives
    the reset line, and with the trigger option off it never transmits. *)
Theorem collector_stays_in_its_lane (baudrate : Z) (d : D) :
  let evs := events (process_baudrate hw opts baudrate d) in
  Forall (fun e => collector_event opts baudrate e = true) evs
  /\ configured evs = []
  /\ statuses evs = []
  /\ (trigger opts = false -> transmits evs = 0%nat).
Proof.
  cbv zeta. pose proof (process_baudrate_collector_events baudrate d) as H.
  split; [exact H|]. exact (collector_event_quiet baudrate _ H).
Qed.

Lemma polls_no_warning (evs : list event) :
  Forall (fun e => e = Call InWaiting) evs -> existsb is_warning evs = false.
Proof. induction 1 as [|e evs -> _ IH]; [reflexivity|exact IH]. Qed.

Lemma pass_warns (baudrate : Z) (l : locals) (d : D) :
  existsb is_warning (events (pass hw opts baudrate l d))
  = match result (pass hw opts baudrate l d) with
    | inr (Return _) => true
    | _ => false
    end.
Proof.
  pose proof (pass_events baudrate l d) as H. cbv zeta in H.
  pose proof (polls_no_warning _ (AnalyzerFacts.wait_bytes_events hw d)) as Hw.
  destruct (result (wait_bytes hw d)) as [e|[|]].
  - now rewrite H.
  - destruct (fst (receive hw 1 (final (wait_bytes hw d)))); rewrite H;
      cbn [result events]; rewrite existsb_app, Hw; reflexivity.
  - destruct (trigger opts && (loop l <? 3)).
    + destruct (fst (transmit hw (trigger_char opts) (final (wait_bytes hw d))));
        rewrite H; cbn [result events]; rewrite existsb_app, Hw;
        [|destruct (fst (sleep hw _ _))]; reflexivity.
    + rewrite H. cbn [result events]. rewrite existsb_app, Hw. reflexivity.
Qed.

Lemma while_loop_warns (baudrate : Z) (fuel : nat) (l : locals) (d : D) :
  existsb is_warning (events (while_loop hw opts fuel baudrate l d))
  = match result (while_loop hw opts fuel baudrate l d) with
    | inr (inr _) => true
    | _ => false
    end.
Proof.
  revert l d. induction fuel as [|fuel IH]; intros l d.
  - simpl. destruct (count l <? threshold); reflexivity.
  - destruct (Z.lt_ge_cases (count l) threshold) as [Hc|Hc].
    2:{ now rewrite AnalyzerFacts.while_loop_exit by assumption. }
    rewrite AnalyzerFacts.while_loop_step by assumption. rewrite bind_run.
    pose proof (pass_warns baudrate l d) as Hp.
    destruct (pass hw opts baudrate l d) as [[e|[l'|v]] d1 evs];
      cbn [result final events] in *.
    + assumption.
    + rewrite existsb_app, Hp. apply IH.
    + rewrite existsb_app, Hp. reflexivity.
Qed.

Lemma pass_prints_nothing (baudrate : Z) (l : locals) (d : D) :
  Forall (fun e => printed_result e = None) (events (pass hw opts baudrate l d)).
Proof.
  pose proof (pass_events baudrate l d) as H. cbv zeta in H.
  pose proof (polls_Forall (fun e => printed_result e = None) d eq_refl) as Hw.
  destruct (result (wait_bytes hw d)) as [e|[|]].
  - now rewrite H.
  - destruct (fst (receive hw 1 (final (wait_bytes hw d)))); rewrite H;
      cbn [events]; apply Forall_app; split; try assumption; repeat constructor.
  - destruct (trigger opts && (loop l <? 3)).
    + destruct (fst (transmit hw (trigger_char opts) (final (wait_bytes hw d))));
        rewrite H; cbn [events]; apply Forall_app; split; try assumption;
        repeat constructor.
    + rewrite H. cbn [events]. apply Forall_app. split; [assumption|].
      repeat constructor.
Qed.

Lemma nothing_printed (evs : list event) :
  Forall (fun e => printed_result e = None) evs -> printed evs = [].
Proof.
  unfold printed. induction 1 as [|e evs He _ IH]; [reflexivity|].
  simpl. now rewrite He.
Qed.

Lemma result_lines_no_warning (baudrate : Z) (buf : list byte) (h : R) :
  existsb is_warning (result_lines opts baudrate buf h) = false.
Proof.
  unfold result_lines. destruct (min_entropy opts) as [least|];
    [destruct (Rge_dec h least)|]; reflexivity.
Qed.

(** **** X6.  What [process_baudrate] returns tells how the collection
    ended, and never says "found": it returns [None] exactly when the loop
    collected its sample, and [False] exactly when it logged the no-data
    warning, in which case no result line is printed. *)
Theorem process_baudrate_outcome (baudrate : Z) (d : D) :
  let r := process_baudrate hw opts baudrate d in
  let w := while_loop hw opts max_passes baudrate (Locals 0 0 []) d in
  (forall v, result r = inr v -> v = None \/ v = Some false)
  /\ (result r = inr None <-> exists l, result w = inr (inl l))
  /\ (result r = inr (Some false) <-> existsb is_warning (events r) = true)
  /\ (result r = inr (Some false) -> printed (events r) = []).
Proof.
  cbv zeta. rewrite AnalyzerFacts.process_baudrate_run_eq. unfold process_baudrate_run.
  pose proof (while_loop_warns baudrate max_passes (Locals 0 0 []) d) as Hwarn.
  pose proof (while_loop_Forall _ baudrate (pass_prints_nothing baudrate)
                max_passes (Locals 0 0 []) d) as Hpr.
  apply nothing_printed in Hpr.
  destruct (result (while_loop hw opts max_passes baudrate (Locals 0 0 []) d))
    as [e|[l|v]] eqn:Hw; cbn [result events existsb is_warning orb].
  - rewrite Hwarn. repeat split; try discriminate. intros [l Hl]. discriminate.
  - rewrite existsb_app, Hwarn, result_lines_no_warning.
    repeat split; try discriminate.
    + intros v Hv. inversion Hv. now left.
    + intros _. now exists l.
  - rewrite Hwarn. pose proof (AnalyzerFacts.while_loop_returns _ _ _ _ _ _ _ Hw) as Hv.
    subst v. repeat split; try discriminate; try reflexivity.
    + intros v Hv. inversion Hv. now right.
    + intros [l Hl]. discriminate.
    + intros _. change (ProgressStart :: ?x) with ([ProgressStart] ++ x).
      now rewrite AnalyzerFacts.printed_app, Hpr.
Qed.

Lemma polls_no_receive (d : D) : receives (events (wait_bytes hw d)) = 0%nat.
Proof.
  apply AnalyzerFacts.only_polls_receives, AnalyzerFacts.wait_bytes_events.
Qed.

Lemma pass_receives (baudrate : Z) (l : locals) (d : D) :
  (receives (events (pass hw opts baudrate l d)) <= 1)%nat
  /\ forall l', result (pass hw opts baudrate l d) = inr (Next l') ->
       count l' = count l + Z.of_nat (receives (events (pass hw opts baudrate l d))).
Proof.
  pose proof (pass_events baudrate l d) as H. cbv zeta in H.
  pose proof (polls_no_receive d) as Hw.
  destruct (result (wait_bytes hw d)) as [e|[|]].
  - rewrite H. cbn [result events]. rewrite Hw. split; [lia|discriminate].
  - destruct (fst (receive hw 1 (final (wait_bytes hw d)))); rewrite H;
      cbn [result events]; rewrite AnalyzerFacts.receives_app, Hw;
      (split; [unfold receives; simpl; lia|]); [discriminate|].
    intros l' Hl. inversion Hl; subst. cbn [count]. unfold receives. simpl. lia.
  - destruct (trigger opts && (loop l <? 3)).
    + destruct (fst (transmit hw (trigger_char opts) (final (wait_bytes hw d))));
        rewrite H; cbn [result events]; rewrite AnalyzerFacts.receives_app, Hw;
        (split; [unfold receives; simpl; lia|]); [discriminate|].
      destruct (fst (sleep hw _ _)); [discriminate|].
      intros l' Hl. inversion Hl; subst. cbn [count]. unfold receives. simpl. lia.
    + rewrite H. cbn [result events]. rewrite AnalyzerFacts.receives_app, Hw.
      split; [unfold receives; simpl; lia|discriminate].
Qed.

Lemma while_loop_receives (baudrate : Z) (fuel : nat) (l : locals) (d : D) :
  (receives (events (while_loop hw opts fuel baudrate l d))
   <= Z.to_nat (threshold - count l))%nat.
Proof.
  revert l d. induction fuel as [|fuel IH]; intros l d.
  - simpl. destruct (count l <? threshold); unfold receives; simpl; lia.
  - destruct (Z.lt_ge_cases (count l) threshold) as [Hc|Hc].
    2:{ rewrite AnalyzerFacts.while_loop_exit by assumption.
        unfold receives. simpl. lia. }
    rewrite AnalyzerFacts.while_loop_step by assumption. rewrite bind_run.
    destruct (pass_receives baudrate l d) as [Hle Hcount].
    destruct (pass hw opts baudrate l d) as [[e|[l'|v]] d1 evs];
      cbn [result final events] in *.
    + unfold threshold in *. lia.
    + rewrite AnalyzerFacts.receives_app.
      specialize (Hcount l' eq_refl). specialize (IH l' d1).
      unfold threshold in *. lia.
    + rewrite AnalyzerFacts.receives_app. unfold receives at 2. simpl.
      unfold threshold in *. lia.
Qed.

(** **** X15.  Whatever the port does, collecting for one candidate rate
    makes at most ten [receive] calls, also when the collection fails or an
    exception ends it. *)
Theorem collector_receives_at_most_10 (baudrate : Z) (d : D) :
  (receives (events (process_baudrate hw opts baudrate d)) <= 10)%nat.
Proof.
  pose proof (while_loop_receives baudrate max_passes (Locals 0 0 []) d) as Hw.
  cbn [count] in Hw. change (Z.to_nat (threshold - 0)) with 10%nat in Hw.
  rewrite AnalyzerFacts.process_baudrate_run_eq. unfold process_baudrate_run.
  destruct (result (while_loop hw opts max_passes baudrate (Locals 0 0 []) d))
    as [e|[l|v]]; cbn [events];
    change (ProgressStart :: ?x) with ([ProgressStart] ++ x);
    rewrite ?AnalyzerFacts.receives_app;
    change (receives [ProgressStart]) with 0%nat; cbn [Nat.add];
    try assumption.
  assert (Hlines : receives (result_lines opts baudrate (received_bytes l)
                               (Entropy.score (received_bytes l))) = 0%nat).
  { unfold result_lines. destruct (min_entropy opts) as [least|];
      [destruct (Rge_dec _ least)|]; reflexivity. }
  rewrite Hlines. lia.
Qed.

(** **** X7.  With the trigger option off, a port that shows no byte during
    the first wait ends the collection at once: no byte is read, the warning
    is logged and [False] is returned. *)
Theorem silent_port_without_trigger (baudrate : Z) (d : D) :
  trigger opts = false ->
  result (wait_bytes hw d) = inr false ->
  process_baudrate hw opts baudrate d
  = Out (inr (Some false)) (final (wait_bytes hw d))
      (ProgressStart :: events (wait_bytes hw d)
         ++ [ProgressStop; Log WARNING (NoData baudrate)]).
Proof.
  intros Hoff Hwait.
  rewrite AnalyzerFacts.process_baudrate_run_eq. unfold process_baudrate_run, max_passes.
  rewrite AnalyzerFacts.while_loop_step by (cbn [count]; unfold threshold; lia).
  rewrite bind_run.
  pose proof (pass_events baudrate (Locals 0 0 []) d) as H. cbv zeta in H.
  rewrite Hwait, Hoff in H. cbn [andb] in H. rewrite H.
  cbn [result final events ret]. now rewrite app_nil_r.
Qed.
End Collector.

(** X7 at work: a target that never sends, one candidate rate. *)
Lemma silent_port_without_trigger_witness :
  (trigger (Sim.options "list" "9600" false) = false
   /\ result (wait_bytes (Sim.adapter [] false) (Sim.answering [])) = inr false)
  /\ process_baudrate (Sim.adapter [] false) (Sim.options "list" "9600" false) 9600
       (Sim.answering [])
     = Out (inr (Some false)) (final (wait_bytes (Sim.adapter [] false) (Sim.answering [])))
         (ProgressStart :: events (wait_bytes (Sim.adapter [] false) (Sim.answering []))
            ++ [ProgressStop; Log WARNING (NoData 9600)]).
Proof.
  split; [split; reflexivity|].
  exact (silent_port_without_trigger (Sim.adapter [] false)
           (Sim.options "list" "9600" false) 9600 (Sim.answering [])
           eq_refl eq_refl).
Defined.

(** *** Reset line *)

Section ResetLine.
Context {D : Type} (hw : Adapter D) (opts : Options).

Lemma bind_sleep {B : Type} (seconds : Q) (k : unit -> M D B) (d : D) :
  bind (time_sleep hw seconds) k d
  = if Qle_bool 0 seconds then
      match fst (sleep hw seconds d) with
      | inl e => Out (inl e) (snd (sleep hw seconds d)) [Call (Sleep seconds)]
      | inr _ =>
          Out (result (k tt (snd (sleep hw seconds d))))
              (final (k tt (snd (sleep hw seconds d))))
              (Call (Sleep seconds) :: events (k tt (snd (sleep hw seconds d))))
      end
    else Out (inl (ValueError "sleep length must be non-negative")) d [].
Proof.
  unfold time_sleep. destruct (Qle_bool 0 seconds); [|reflexivity].
  rewrite bind_invoke. now destruct (fst (sleep hw seconds d)) as [e|[]].
Qed.

(** The pulse written by [reset_target], from the level [first]. *)
Lemma pulse_run (first second : Z) (d : D) :
  let pulse :=
    bind (gpio_set_status hw first)
      (fun _ => bind (time_sleep hw (reset_hold opts))
                  (fun _ => gpio_set_status hw second)) in
  (exists e d' evs, pulse d = Out (inl e) d' evs
                    /\ Forall (fun ev => configured_rate ev = None) evs)
  \/ (exists d', pulse d
                 = Out (inr tt) d'
                     [Call (GpioStatus first); Call (Sleep (reset_hold opts));
                      Call (GpioStatus second)]).
Proof.
  cbv zeta. unfold gpio_set_status. rewrite bind_invoke.
  destruct (gpio_status hw first d) as [[e|[]] d1]; cbn [fst snd].
  - left. exists e, d1. eexists. split; [reflexivity|]. repeat constructor.
  - rewrite bind_sleep. destruct (Qle_bool 0 (reset_hold opts)).
    2:{ left. eexists. exists d1. eexists. split; [reflexivity|]. repeat constructor. }
    destruct (sleep hw (reset_hold opts) d1) as [[e|[]] ds]; cbn [fst snd].
    { left. exists e, ds. eexists. split; [reflexivity|]. repeat constructor. }
    unfold invoke. cbn [result final events].
    destruct (gpio_status hw second ds) as [[e|[]] d2]; cbn [fst snd].
    + left. exists e, d2. eexists. split; [reflexivity|]. repeat constructor.
    + right. exists d2. reflexivity.
Qed.

Lemma reset_target_cases (pin : Z) (d : D) :
  let active := 1 - inactive_level opts in
  (exists e d' evs, reset_target hw opts (Some pin) d = Out (inl e) d' evs
                    /\ Forall (fun ev => configured_rate ev = None) evs)
  \/ (exists d', reset_target hw opts (Some pin) d
                 = Out (inr tt) d'
                     [Log INFO (Text "Attempting to reset the target..");
                      Call (GpioStatus active); Call (Sleep (reset_hold opts));
                      Call (GpioStatus (inactive_level opts));
                      Call (Sleep (reset_delay opts))]).
Proof.
  cbv zeta. unfold reset_target, log, inactive_level. rewrite bind_emit, bind_run.
  destruct (String.eqb (upper (reset_pol opts)) "LOW").
  - destruct (pulse_run 0 1 d) as [(e & d' & evs & -> & Hev)|(d' & ->)];
      cbn [result final events app].
    + left. exists e, d'. eexists. split; [reflexivity|]. now constructor.
    + unfold time_sleep, invoke, raise. destruct (Qle_bool 0 (reset_delay opts));
        cbn [result final events app].
      2:{ left. eexists. exists d'. eexists. split; [reflexivity|]. repeat constructor. }
      destruct (sleep hw (reset_delay opts) d') as [[e|[]] d2]; cbn [fst snd].
      * left. exists e, d2. eexists. split; [reflexivity|]. repeat constructor.
      * right. eexists. reflexivity.
  - destruct (pulse_run 1 0 d) as [(e & d' & evs & -> & Hev)|(d' & ->)];
      cbn [result final events app].
    + left. exists e, d'. eexists. split; [reflexivity|]. now constructor.
    + unfold time_sleep, invoke, raise. destruct (Qle_bool 0 (reset_delay opts));
        cbn [result final events app].
      2:{ left. eexists. exists d'. eexists. split; [reflexivity|]. repeat constructor. }
      destruct (sleep hw (reset_delay opts) d') as [[e|[]] d2]; cbn [fst snd].
      * left. exists e, d2. eexists. split; [reflexivity|]. repeat constructor.
      * right. eexists. reflexivity.
Qed.

Lemma reset_target_configures_nothing (self_reset_pin : option Z) (d : D) :
  configured (events (reset_target hw opts self_reset_pin d)) = [].
Proof.
  destruct self_reset_pin as [pin|]; [|reflexivity].
  destruct (reset_target_cases pin d) as [(e & d' & evs & -> & Hev)|(d' & ->)];
    [|reflexivity].
  cbn [events]. unfold configured. clear - Hev.
  induction Hev as [|ev evs He _ IH]; [reflexivity|]. simpl. now rewrite He.
Qed.

(** **** X8.  Without a reset pin [reset_target] does nothing.  With one, a
    reset that goes through is the pulse active level, hold time, inactive
    level, then the delay, and nothing else; and [init], when it goes
    through, has written the inactive level once.  So the line rests at the
    inactive level before and after every pulse (0 is active for polarity
    "low", 1 otherwise). *)
Theorem reset_line_rests_inactive (pin : Z) (d : D) :
  let active := 1 - inactive_level opts in
  reset_target hw opts None d = Out (inr tt) d []
  /\ (result (reset_target hw opts (Some pin) d) = inr tt ->
      events (reset_target hw opts (Some pin) d)
      = [Log INFO (Text "Attempting to reset the target..");
         Call (GpioStatus active); Call (Sleep (reset_hold opts));
         Call (GpioStatus (inactive_level opts)); Call (Sleep (reset_delay opts))])
  /\ (forall v, result (init hw opts d) = inr v ->
        v = reset_pin opts
        /\ statuses (events (init hw opts d))
           = match reset_pin opts with
             | Some _ => [inactive_level opts]
             | None => []
             end).
Proof.
  cbv zeta. split; [reflexivity|]. split.
  - intros Hok.
    destruct (reset_target_cases pin d) as [(e & d' & evs & Heq & _)|(d' & Heq)];
      rewrite Heq in *; [discriminate|reflexivity].
  - intros v. unfold init. rewrite bind_invoke.
    destruct (uart_open hw (uart_interface opts) d) as [[e|[]] d1]; cbn [fst snd];
      [discriminate|].
    destruct (reset_pin opts) as [p|].
    2:{ cbn [ret result events]. intros Hv. inversion Hv. split; reflexivity. }
    rewrite bind_invoke.
    destruct (gpio_open hw p d1) as [[e|[]] d2]; cbn [fst snd result events];
      [discriminate|].
    rewrite bind_invoke.
    destruct (gpio_direction hw d2) as [[e|[]] d3]; cbn [fst snd result events];
      [discriminate|].
    rewrite bind_run. unfold inactive_level, gpio_set_status, invoke.
    destruct (String.eqb (upper (reset_pol opts)) "LOW"); cbn [result final events].
    + destruct (gpio_status hw 1 d3) as [[e|[]] d4]; cbn [fst snd ret result events];
        [discriminate|]. intros Hv. inversion Hv. split; reflexivity.
    + destruct (gpio_status hw 0 d3) as [[e|[]] d4]; cbn [fst snd ret result events];
        [discriminate|]. intros Hv. inversion Hv. split; reflexivity.
Qed.
End ResetLine.

(** *** The two modes and [run] *)

Section Modes.
Context {D : Type} (hw : Adapter D) (opts : Options).

(** **** X9.  Degenerate bounds in incremental mode.  A zero increment is an
    error raised before any call on the adapter; an empty range (a positive
    increment with max not above min, or a negative one with max not below
    min) sweeps nothing and says nothing. *)
Theorem incremental_mode_degenerate (self_reset_pin : option Z) (d : D) :
  (baudrate_inc opts = 0 ->
     incremental_mode hw opts self_reset_pin d
     = Out (inl (ValueError "range() arg 3 must not be zero")) d [])
  /\ (0 < baudrate_inc opts -> baudrate_max opts <= baudrate_min opts ->
      incremental_mode hw opts self_reset_pin d = Out (inr tt) d [])
  /\ (baudrate_inc opts < 0 -> baudrate_min opts <= baudrate_max opts ->
      incremental_mode hw opts self_reset_pin d = Out (inr tt) d []).
Proof.
  unfold incremental_mode, range, range_length. split; [|split].
  - intros ->. reflexivity.
  - intros Hinc Hle. rewrite bind_run. unfold lift. cbn [result final events].
    destruct (Z.eqb_spec (baudrate_inc opts) 0) as [H0|_]; [lia|].
    destruct (Z.ltb_spec 0 (baudrate_inc opts)) as [_|H]; [|lia].
    destruct (Z.ltb_spec (baudrate_min opts) (baudrate_max opts)) as [H|_]; [lia|].
    reflexivity.
  - intros Hinc Hle. rewrite bind_run. unfold lift. cbn [result final events].
    destruct (Z.eqb_spec (baudrate_inc opts) 0) as [H0|_]; [lia|].
    destruct (Z.ltb_spec 0 (baudrate_inc opts)) as [H|_]; [lia|].
    destruct (Z.ltb_spec (baudrate_max opts) (baudrate_min opts)) as [H|_]; [lia|].
    reflexivity.
Qed.

Lemma int_raises_ValueError (s : string) (e : exn) :
  int s = inl e -> exists msg, e = ValueError msg.
Proof.
  unfold int. intros H.
  repeat match type of H with
         | context [match ?x with _ => _ end] => destruct x
         end;
    inversion H; eexists; reflexivity.
Qed.

Lemma comprehension_fails {A B : Type} (f : A -> exn + B) (l : list A) (x : A)
      (e0 : exn) :
  In x l -> f x = inl e0 ->
  exists y e, In y l /\ f y = inl e /\ comprehension f l = inl e.
Proof.
  induction l as [|a l IH]; [intros []|].
  intros Hin Hx. cbn [comprehension]. destruct (f a) as [e|b] eqn:Ha.
  - exists a, e. repeat split; [now left|assumption].
  - destruct Hin as [->|Hin]; [congruence|].
    destruct (IH Hin Hx) as (y & e & Hy & Hfy & Hc).
    exists y, e. split; [now right|]. split; [assumption|].
    cbn [Pure.bind]. now rewrite Hc.
Qed.

(** **** X10.  In list mode one malformed entry anywhere in the list rejects
    the whole list: [list_mode] raises a [ValueError] before making any call
    on the adapter, so the well-formed rates before it are not swept
    either. *)
Theorem list_mode_rejects_whole_list
    (self_reset_pin : option Z) (d : D) (entry : string) (e0 : exn) :
  In entry (split "," (baudrate_list opts)) ->
  int (strip entry) = inl e0 ->
  exists msg,
    list_mode hw opts self_reset_pin d = Out (inl (ValueError msg)) d [].
Proof.
  intros Hin Hbad.
  destruct (comprehension_fails (fun b => int (strip b)) _ entry e0 Hin Hbad)
    as (y & e & _ & Hy & Hc).
  destruct (int_raises_ValueError _ _ Hy) as [msg ->].
  exists msg. unfold list_mode. rewrite bind_run. unfold lift.
  cbn [result final events]. now rewrite Hc.
Qed.



End Modes.

(** *** The sweep loop *)

Section Sweep.
Context {D : Type} (hw : Adapter D) (opts : Options).

Lemma bind_assoc {A B C : Type} (m : M D A) (f : A -> M D B) (g : B -> M D C)
      (d : D) :
  bind (bind m f) g d = bind m (fun a => bind (f a) g) d.
Proof.
  unfold bind. destruct (result (m d)) as [e|a]; cbn [result final events];
    [reflexivity|].
  destruct (result (f a (final (m d)))) as [e|b]; cbn [result final events];
    [reflexivity|].
  now rewrite app_assoc.
Qed.

Lemma bind_ext_returned {A B : Type} (m : M D A) (f g : A -> M D B) (d : D) :
  (forall a, result (m d) = inr a -> f a (final (m d)) = g a (final (m d))) ->
  bind m f d = bind m g d.
Proof.
  intros H. unfold bind. destruct (result (m d)) as [e|a]; [reflexivity|].
  now rewrite (H a eq_refl).
Qed.

Lemma bind_ret_l {B : Type} (k : unit -> M D B) (d : D) : bind (ret tt) k d = k tt d.
Proof. unfold bind, ret. cbn [result final events app]. now destruct (k tt d). Qed.

(** **** X12.  The loop over the rates never stops early: sweeping a list
    made of two parts is sweeping the first part and then, unless an
    exception got out, the second one from the state reached. *)
Theorem sweep_app (self_reset_pin : option Z) (first second : list Z) (d : D) :
  sweep hw opts self_reset_pin (first ++ second) d
  = bind (sweep hw opts self_reset_pin first)
         (fun _ => sweep hw opts self_reset_pin second) d.
Proof.
  revert d. induction first as [|baudrate later IH]; intros d.
  - cbn [app sweep]. now rewrite bind_ret_l.
  - cbn [app sweep]. rewrite bind_assoc. apply AnalyzerFacts.bind_ext.
    intros [|] d1; [|apply IH].
    rewrite bind_assoc. apply AnalyzerFacts.bind_ext. intros _ d2.
    rewrite bind_assoc. apply bind_ext_returned. intros found Hfound.
    rewrite (AnalyzerFacts.process_baudrate_falsy _ _ _ _ _ Hfound). apply IH.
Qed.

Lemma subseq_nil_l {A : Type} (l : list A) : subseq [] l.
Proof. induction l; constructor; assumption. Qed.

(** **** X13.  The rates a sweep configures form a sub-sequence of its
    list: no other rate is ever configured, none out of order, and an entry
    is left out only when the transport flush before its [configure] failed
    or an exception ended the sweep before it. *)
Theorem sweep_configures_in_order (self_reset_pin : option Z) (rates : list Z) (d : D) :
  subseq (configured (events (sweep hw opts self_reset_pin rates d))) rates.
Proof.
  revert d. induction rates as [|baudrate later IH]; intros d; [constructor|].
  cbn [sweep]. rewrite bind_run.
  assert (Hhead : forall rest, subseq (configured rest) later ->
            subseq (configured (events (change_baudrate hw baudrate d) ++ rest))
                   (baudrate :: later)).
  { intros rest Hrest. rewrite AnalyzerFacts.configured_app.
    destruct (change_baudrate_cases D hw baudrate d) as (_ & _ & _ & [Hnone|Hone]).
    - rewrite Hnone. now constructor.
    - destruct Hone as (n & tl & -> & Htl). cbn. unfold configured in Htl.
      rewrite Htl. now constructor. }
  destruct (result (change_baudrate hw baudrate d)) as [e|[|]]; cbn [result final events].
  - rewrite <- (app_nil_r (events _)). apply Hhead. apply subseq_nil_l.
  - apply Hhead. rewrite bind_run.
    pose proof (reset_target_configures_nothing hw opts self_reset_pin
                  (final (change_baudrate hw baudrate d))) as Hrt.
    destruct (result (reset_target hw opts self_reset_pin
                        (final (change_baudrate hw baudrate d)))) as [e|[]];
      cbn [result final events].
    + rewrite Hrt. apply subseq_nil_l.
    + rewrite AnalyzerFacts.configured_app, Hrt. cbn [app]. rewrite bind_run.
      match goal with
      | |- context [process_baudrate hw opts baudrate ?d2] =>
          pose proof (collector_stays_quiet_in hw opts baudrate d2) as Hpb
      end.
      match goal with
      | |- context [process_baudrate hw opts baudrate ?d2] =>
          destruct (result (process_baudrate hw opts baudrate d2)) as [e|found];
            cbn [result final events]
      end.
      * rewrite Hpb. apply subseq_nil_l.
      * rewrite AnalyzerFacts.configured_app, Hpb. cbn [app].
        destruct (truthy found); [apply subseq_nil_l|apply IH].
  - apply Hhead. apply IH.
Qed.
End Sweep.

(** X10 at work: the list "9600,abc". *)
Lemma list_mode_rejects_whole_list_witness :
  (In "abc"%string (split "," (baudrate_list (Sim.options "list" "9600,abc" false)))
   /\ int (strip "abc") = inl (ValueError "invalid literal for int() with base 10"))
  /\ exists msg,
       list_mode (Sim.adapter [] false) (Sim.options "list" "9600,abc" false) None
         (Sim.talking 11)
       = Out (inl (ValueError msg)) (Sim.talking 11) [].
Proof.
  split; [split; [right; left; reflexivity|reflexivity]|].
  exact (list_mode_rejects_whole_list (Sim.adapter [] false)
           (Sim.options "list" "9600,abc" false) None (Sim.talking 11)
           "abc" (ValueError "invalid literal for int() with base 10")
           (or_intror (or_introl eq_refl)) eq_refl).
Defined.
End SweepFacts.
